(** * IFRS 9 transition-matrix engine: a shallow embedding of
      [matrix_functions.py] and the properties of its Markov-chain core.

    Modelling conventions.
    - A NumPy [float64] is an exact rational kept in lowest terms, or one of
      the IEEE special values (infinities, NaN).  Rounding, overflow and the
      sign of zero are not modelled.
    - A pandas [DataFrame] with the two-level row index
      (Loan Segment, Current Stage) is a list of labelled rows, in index
      order, under a list of column labels.  [pd.crosstab] builds such a
      frame with a lexsorted index, on which indexing by the first level
      ([.loc[segment]]) yields a view: a write through it lands in the
      frame itself.
    - A [DataFrame] is a mutable object: functions that receive one take a
      location of the object store and run in a state-and-exception monad.
    - [np.linalg.matrix_power] is modelled by its contract on exact
      numbers: the n-fold product of the matrix with itself. *)

From Stdlib Require Import QArith ZArith Lia Lqa Bool.
From Stdlib Require OrderedTypeEx.
From Stdlib Require Import Sorted.
From stdpp Require Import gmap strings list sorting.

Local Open Scope Z_scope.

(** ** Numbers *)

Inductive float64 : Type :=
  | Fin (q : Q)
  | Inf (negative : bool)
  | NaN.

Definition Qis_zero (q : Q) : bool := Qeq_bool q 0.
Definition Qis_neg (q : Q) : bool := negb (Qle_bool 0 q).

Definition fadd (x y : float64) : float64 :=
  match x, y with
  | Fin a, Fin b => Fin (Qred (a + b))
  | NaN, _ | _, NaN => NaN
  | Inf s, Inf s' => if eqb s s' then Inf s else NaN
  | Inf s, Fin _ | Fin _, Inf s => Inf s
  end.

Definition fneg (x : float64) : float64 :=
  match x with
  | Fin a => Fin (Qred (- a))
  | Inf s => Inf (negb s)
  | NaN => NaN
  end.

Definition fsub (x y : float64) : float64 :=
  match x, y with
  | Fin a, Fin b => Fin (Qred (a - b))
  | _, _ => fadd x (fneg y)
  end.

Definition fmul (x y : float64) : float64 :=
  match x, y with
  | Fin a, Fin b => Fin (Qred (a * b))
  | NaN, _ | _, NaN => NaN
  | Inf s, Inf s' => Inf (xorb s s')
  | Inf s, Fin a | Fin a, Inf s =>
      if Qis_zero a then NaN else Inf (xorb s (Qis_neg a))
  end.

Definition fdiv (x y : float64) : float64 :=
  match x, y with
  | Fin a, Fin b =>
      if Qis_zero b
      then (if Qis_zero a then NaN else Inf (Qis_neg a))
      else Fin (Qred (a / b))
  | NaN, _ | _, NaN => NaN
  | Inf _, Inf _ => NaN
  | Fin _, Inf _ => Fin 0
  | Inf s, Fin b => Inf (xorb s (Qis_neg b))
  end.

(** The arithmetic an array element type offers.  The matrix code below is
    written once against this interface; it runs on [float64], and on plain
    rationals where the algebra is done. *)
Class Arith (A : Type) := {
  zero : A;
  one : A;
  add : A -> A -> A;
  sub : A -> A -> A;
  mul : A -> A -> A
}.

#[global] Instance float64_arith : Arith float64 :=
  {| zero := Fin 0; one := Fin 1; add := fadd; sub := fsub; mul := fmul |}.

#[global] Instance Q_arith : Arith Q :=
  {| zero := 0%Q; one := 1%Q;
     add := fun a b => Qred (a + b);
     sub := fun a b => Qred (a - b);
     mul := fun a b => Qred (a * b) |}.

(** ** Exceptions and results *)

Inductive exn : Type :=
  | ValueError (msg : string)
  | IndexError (msg : string)
  | KeyError (key : string)
  | LinAlgError (msg : string)
  | UnboundLocalError (name : string).

Inductive result (A : Type) : Type :=
  | Ok (a : A)
  | Raise (e : exn).
Arguments Ok {A} a.
Arguments Raise {A} e.

#[global] Instance result_ret : MRet result := fun A a => Ok a.
#[global] Instance result_bind : MBind result := fun A B k r =>
  match r with
  | Ok a => k a
  | Raise e => Raise e
  end.

(** [[f(x) for x in xs]] where [f] may raise. *)
Fixpoint comprehension {A B} (f : A -> result B) (xs : list A) : result (list B) :=
  match xs with
  | [] => Ok []
  | x :: xs' =>
      y ← f x; ys ← comprehension f xs'; Ok (y :: ys)
  end.

(** [for x in xs: acc = body(acc, x)] where the body may raise. *)
Fixpoint for_each {A S} (body : S -> A -> result S) (xs : list A) (acc : S) : result S :=
  match xs with
  | [] => Ok acc
  | x :: xs' => acc' ← body acc x; for_each body xs' acc'
  end.

(** ** Vectors and matrices (NumPy arrays of rank 1 and 2) *)

Section Arrays.
Context {A : Type} `{Arith A}.

Definition vadd (u v : list A) : list A := zip_with add u v.
Definition vscale (c : A) (v : list A) : list A := mul c <$> v.
Definition vzero (n : nat) : list A := replicate n zero.

(** [sum_k r[k] * B[k, :]]: the row vector [r] times the matrix [B] of
    width [n]. *)
Fixpoint vec_mat (n : nat) (r : list A) (B : list (list A)) : list A :=
  match r, B with
  | c :: r', b :: B' => vadd (vscale c b) (vec_mat n r' B')
  | _, _ => vzero n
  end.

(** [A @ B] for a [B] of width [n]. *)
Definition mat_mul (n : nat) (M B : list (list A)) : list (list A) :=
  (fun r => vec_mat n r B) <$> M.

Definition unit_vector (n i : nat) : list A :=
  (fun j => if Nat.eqb i j then one else zero) <$> seq 0 n.

(** [np.identity(n)] *)
Definition identity (n : nat) : list (list A) :=
  unit_vector n <$> seq 0 n.

Definition is_square (M : list (list A)) : bool :=
  forallb (fun r => Nat.eqb (length r) (length M)) M.

(** The [n]-fold product [M @ M @ ... @ M] of a square matrix. *)
Fixpoint mat_pow (M : list (list A)) (n : nat) : list (list A) :=
  match n with
  | O => identity (length M)
  | S O => M
  | S k => mat_mul (length M) (mat_pow M k) M
  end.

(** [np.linalg.matrix_power(M, n)] for [n >= 0]. *)
Definition matrix_power (M : list (list A)) (n : nat) : result (list (list A)) :=
  if is_square M then Ok (mat_pow M n)
  else Raise (LinAlgError "Last 2 dimensions of the array must be square").

(** [P[i, j]] for non-negative [i], [j]. *)
Definition index2 (P : list (list A)) (i j : nat) : result A :=
  match P !! i with
  | Some r =>
      match r !! j with
      | Some x => Ok x
      | None => Raise (IndexError "index is out of bounds for axis 1")
      end
  | None => Raise (IndexError "index is out of bounds for axis 0")
  end.

(** [[np.linalg.matrix_power(M, i)[row, col] for i in range(1, 301)]] *)
Definition cumulative (M : list (list A)) (row col : nat) : result (list A) :=
  comprehension
    (fun i => P ← matrix_power M i; index2 P row col)
    (seq 1 300).

(** [[c[i] if i == 0 else c[i] - c[i-1] for i in range(len(c))]] *)
Definition marginal (c : list A) : list A :=
  (fun i => if Nat.eqb i 0 then nth i c zero
            else sub (nth i c zero) (nth (i - 1) c zero))
    <$> seq 0 (length c).

(** [np.sum] of a vector. *)
Definition vsum (v : list A) : A := foldr add zero v.
End Arrays.

(** ** Frames and the object store *)

(** One row of a frame indexed by (Loan Segment, Current Stage). *)
Record Row : Type := {
  seg : string;
  stage : string;
  cells : list float64
}.

Record DataFrame : Type := {
  columns : list string;
  rows : list Row
}.

(** [Index.unique()]: the distinct labels, in order of first appearance. *)
Fixpoint unique (l : list string) : list string :=
  match l with
  | [] => []
  | x :: l' => x :: filter (fun y => y ≠ x) (unique l')
  end.

(** [df.index.get_level_values('Loan Segment').unique()] *)
Definition segments (df : DataFrame) : list string :=
  unique (seg <$> rows df).

(** The rows [df.loc[s]] selects. *)
Definition loc_rows (s : string) (df : DataFrame) : list Row :=
  filter (fun r => seg r = s) (rows df).

(** [df.loc[s]] handed to NumPy: the values of the selected rows. *)
Definition loc_values (s : string) (df : DataFrame) : list (list float64) :=
  cells <$> loc_rows s df.

Definition with_cells (r : Row) (v : list float64) : Row :=
  {| seg := seg r; stage := stage r; cells := v |}.

(** The [k]-th row among those of segment [s] is overwritten with [v]. *)
Fixpoint set_row (s : string) (k : nat) (v : list float64) (rs : list Row) : list Row :=
  match rs with
  | [] => []
  | r :: rs' =>
      if decide (seg r = s) then
        match k with
        | O => with_cells r v :: rs'
        | S k' => r :: set_row s k' v rs'
        end
      else r :: set_row s k v rs'
  end.

Abbreviation loc := nat (only parsing).
Abbreviation heap := (gmap nat DataFrame) (only parsing).

(** Computations that read and write the object store and may raise; the
    store survives an exception. *)
Definition State (A : Type) : Type := gmap nat DataFrame -> result A * gmap nat DataFrame.

#[global] Instance State_ret : MRet State := fun A a h => (Ok a, h).
#[global] Instance State_bind : MBind State := fun A B k m h =>
  match m h with
  | (Ok a, h') => k a h'
  | (Raise e, h') => (Raise e, h')
  end.

Definition raise {A} (e : exn) : State A := fun h => (Raise e, h).

Definition lift {A} (r : result A) : State A := fun h => (r, h).

(** Dereference an object; every reference a caller holds is live. *)
Definition deref (l : loc) : State DataFrame := fun h =>
  match h !! l with
  | Some df => (Ok df, h)
  | None => (Raise (KeyError "dangling reference"), h)
  end.

Definition store (l : loc) (df : DataFrame) : State () := fun h =>
  (Ok (), <[l := df]> h).

(** [for x in xs: body(x)] *)
Fixpoint for_in {A} (xs : list A) (body : A -> State ()) : State () :=
  match xs with
  | [] => mret ()
  | x :: xs' => body x;; for_in xs' body
  end.

Definition shape_msg : string := "could not broadcast input array".
Definition enlarge_msg : string := "iloc cannot enlarge its target object".

(** [obj.loc[s].iloc[k] = v], for the frame [obj] at location [l]. *)
Definition setitem_loc_iloc (l : loc) (s : string) (k : nat) (v : list float64) : State () :=
  df ← deref l;
  if decide (loc_rows s df = []) then raise (KeyError s)
  else if decide (length (loc_rows s df) ≤ k)%nat then raise (IndexError enlarge_msg)
  else if decide (length v ≠ length (columns df)) then raise (ValueError shape_msg)
  else store l {| columns := columns df; rows := set_row s k v (rows df) |}.

(** ** The absorbing-state transformer *)

Definition absorbing_state (matrices_df : loc) (matrix_size : Z) : State loc :=
  if decide (matrix_size ∉ [3; 4])
  then raise (ValueError "Invalid matrix size. Should be 3 or 4 only.")
  else
    (if decide (matrix_size = 3) then
       df ← deref matrices_df;
       for_in (segments df) (fun loan_segment =>
         setitem_loc_iloc matrices_df loan_segment 2 [Fin 0; Fin 0; Fin 1])
     else if decide (matrix_size = 4) then
       df ← deref matrices_df;
       for_in (segments df) (fun loan_segment =>
         setitem_loc_iloc matrices_df loan_segment 3 [Fin 0; Fin 0; Fin 0; Fin 1])
     else mret ());;
    mret matrices_df.

(** ** The PD extractor *)

(** A Python [dict] from segment labels to sequences, in insertion order;
    [pd.DataFrame(d)] makes each entry a column. *)
Abbreviation Dict := (list (string * list float64)).

Fixpoint dict_get (k : string) (d : Dict) : option (list float64) :=
  match d with
  | [] => None
  | (k', v) :: d' => if decide (k' = k) then Some v else dict_get k d'
  end.

(** [d[k] = v] *)
Fixpoint dict_set (k : string) (v : list float64) (d : Dict) : Dict :=
  match d with
  | [] => [(k, v)]
  | (k', v') :: d' =>
      if decide (k' = k) then (k, v) :: d' else (k', v') :: dict_set k v d'
  end.

(** [stage_dicts]: per stage, the pair (cumulative_dict, marginal_dict). *)
Abbreviation StageDicts := (list (Dict * Dict)).

Definition pd_stage_step (M : list (list float64)) (matrix_size : Z)
    (loan_segment : string) (stage_dicts : StageDicts) (stage : nat) : result StageDicts :=
  cumulative_pds ← cumulative M stage (Z.to_nat (matrix_size - 1));
  let marginal_pds := marginal cumulative_pds in
  Ok (alter (fun d => (dict_set loan_segment cumulative_pds d.1,
                       dict_set loan_segment marginal_pds d.2)) stage stage_dicts).

Definition pd_segment_step (df : DataFrame) (matrix_size : Z)
    (stage_dicts : StageDicts) (loan_segment : string) : result StageDicts :=
  for_each (pd_stage_step (loc_values loan_segment df) matrix_size loan_segment)
           (seq 0 (Z.to_nat (matrix_size - 1))) stage_dicts.

Definition extract_pds (matrices_df : loc) (matrix_size : Z) : State (list Dict) :=
  if decide (matrix_size ∉ [3; 4])
  then raise (ValueError "Invalid matrix size. Should be 3 or 4 only")
  else
    let stage_dicts : StageDicts := replicate (Z.to_nat (matrix_size - 1)) ([], []) in
    df ← deref matrices_df;
    stage_dicts ← lift (for_each (pd_segment_step df matrix_size) (segments df) stage_dicts);
    let df_cumulative := fst <$> stage_dicts in
    let df_marginal := snd <$> stage_dicts in
    mret (df_cumulative ++ df_marginal).

(** ** The cure and recovery estimator *)

(** The table [cure_rate] reads: categorical columns by name, and the
    numeric [out_balance] column. *)
Record CureTable : Type := {
  categorical : list (string * list string);
  balances : list Q
}.

(** [df.columns] *)
Definition table_columns (df : CureTable) : list string :=
  (fst <$> categorical df) ++ ["out_balance"].

Fixpoint get_column (name : string) (cols : list (string * list string)) : option (list string) :=
  match cols with
  | [] => None
  | (k, v) :: cols' => if decide (k = name) then Some v else get_column name cols'
  end.

(** [df.groupby(by)['out_balance'].sum().loc[label]] *)
Definition groupby_sum_loc (df : CureTable) (by_col label : string) : result float64 :=
  match get_column by_col (categorical df) with
  | None => Raise (KeyError by_col)
  | Some keys =>
      match filter (fun kb => kb.1 = label) (zip keys (balances df)) with
      | [] => Raise (KeyError label)
      | grp => Ok (Fin (vsum (snd <$> grp)))
      end
  end.

(** [M[i, j] = x] on an array. *)
Definition setitem2 (M : list (list float64)) (i j : nat) (x : float64) : list (list float64) :=
  alter (fun r => <[j := x]> r) i M.

(** [M / M.sum(axis=1, keepdims=1)] *)
Definition normalize_rows (M : list (list float64)) : list (list float64) :=
  (fun r => (fun x => fdiv x (vsum r)) <$> r) <$> M.

(** The matrix [cr_rr] of the recoveries branch, once row-normalised. *)
Definition cure_matrix (df : CureTable) : result (list (list float64)) :=
  let cr_rr := identity 3 in
  cured ← groupby_sum_loc df "recoveries" "cured";
  let cr_rr := setitem2 cr_rr 2 0 cured in
  recovered ← groupby_sum_loc df "recoveries" "recovered";
  let cr_rr := setitem2 cr_rr 2 1 recovered in
  stage_3 ← groupby_sum_loc df "recoveries" "stage_3";
  let cr_rr := setitem2 cr_rr 2 2 stage_3 in
  Ok (normalize_rows cr_rr).

Definition cure_rate (df : CureTable) : result Dict :=
  if decide ("recoveries" ∈ table_columns df) then
    cr_rr ← cure_matrix df;
    cumulative_cure_rate ← cumulative cr_rr 2 0;
    cumulative_recovery_rate ← cumulative cr_rr 2 1;
    Ok [("cure_rates", marginal cumulative_cure_rate);
        ("recovery_rates", marginal cumulative_recovery_rate)]
  else
    let cr := identity (A:=float64) 3 in
    cured ← groupby_sum_loc df "cures" "cured";
    let cr := setitem2 cr 2 0 cured in
    (* the right-hand side of [cr_rr[2, 2] = ...] is evaluated first *)
    stage_3 ← groupby_sum_loc df "recoveries" "stage_3";
    Raise (UnboundLocalError "cr_rr").

(** ** The matrix builder *)

Record Transition : Type := {
  loan_type : string;
  current_stage : string;
  next_stage : string;
  out_balance : Q
}.

Fixpoint insert_sorted (x : string) (l : list string) : list string :=
  match l with
  | [] => [x]
  | y :: l' =>
      match String.compare x y with
      | Eq => l
      | Lt => x :: l
      | Gt => y :: insert_sorted x l'
      end
  end.

(** The sorted distinct labels of a key: the level of a grouped index. *)
Definition sorted_unique (l : list string) : list string :=
  foldr insert_sorted [] l.

(** The records of one (segment, current stage, next stage) group. *)
Definition group (df : list Transition) (s c n : string) : list Transition :=
  filter (fun r => loan_type r = s ∧ current_stage r = c ∧ next_stage r = n) df.

(** [aggfunc="sum"] on a group; a group with no record is a missing cell. *)
Definition cell_sum (df : list Transition) (s c n : string) : float64 :=
  match group df s c n with
  | [] => NaN
  | grp => Fin (vsum (out_balance <$> grp))
  end.

Definition is_nan (x : float64) : bool :=
  match x with NaN => true | _ => false end.

(** [x.sum(axis=1)] on a frame row: pandas skips NaN. *)
Definition nansum (v : list float64) : float64 :=
  vsum (List.filter (fun x => negb (is_nan x)) v).

(** [fillna(0)] *)
Definition fillna0 (x : float64) : float64 :=
  if is_nan x then Fin 0 else x.

(** [normalize='index']: [x.div(x.sum(axis=1), axis=0)], then [fillna(0)]. *)
Definition normalize_index (v : list float64) : list float64 :=
  (fun x => fillna0 (fdiv x (nansum v))) <$> v.

(** [pd.crosstab(index=[loan_type, current_stage], columns=[next_stage],
    values=out_balance, aggfunc="sum", dropna=False, normalize='index')]:
    with [dropna=False] the row index is the full product of the two index
    levels. *)
Definition crosstab (df : list Transition) : DataFrame :=
  let segs := sorted_unique (loan_type <$> df) in
  let curs := sorted_unique (current_stage <$> df) in
  let nxts := sorted_unique (next_stage <$> df) in
  {| columns := nxts;
     rows := segs ≫= fun s =>
             (fun c => {| seg := s; stage := c;
                          cells := normalize_index (cell_sum df s c <$> nxts) |}) <$> curs |}.

Definition base_matrices (df : list Transition) : DataFrame :=
  let df := filter (fun r => next_stage r ≠ "exit") df in
  crosstab df.

(** ** Vocabulary of the statements *)

(** The rows of a frame after the row [k] of every listed segment was
    overwritten with [v]. *)
Definition absorb_rows (k : nat) (v : list float64) (segs : list string) (rs : list Row) : list Row :=
  foldl (fun rs s => set_row s k v rs) rs segs.


(** The unit vector that puts 1 in the last of [n] columns: the tuples
    [(0, 0, 1)] and [(0, 0, 0, 1)]. *)
Definition absorbing_row (n : nat) : list float64 := unit_vector n (n - 1).

(** Every segment of the frame owns an [n] x [n] block. *)
Definition well_shaped (n : nat) (df : DataFrame) : Prop :=
  length (columns df) = n /\
  Forall (fun r => length (cells r) = n) (rows df) /\
  Forall (fun s => length (loc_rows s df) = n) (segments df).

(** The message of the guard of [absorbing_state], and of [extract_pds]. *)
Definition invalid_size_absorbing : exn :=
  ValueError "Invalid matrix size. Should be 3 or 4 only.".
Definition invalid_size_extract : exn :=
  ValueError "Invalid matrix size. Should be 3 or 4 only".

(** What a failed write through [.loc[s].iloc[k]] raises. *)
Definition setitem_exn (e : exn) : Prop :=
  (exists s, e = KeyError s) \/ e = IndexError enlarge_msg \/ e = ValueError shape_msg.

(** The cumulative and the marginal sequence that [stage_dicts] holds for
    a stage and a segment. *)
Definition get_cum (sd : StageDicts) (s : nat) (k : string) : option (list float64) :=
  sd !! s ≫= fun d => dict_get k d.1.
Definition get_marg (sd : StageDicts) (s : nat) (k : string) : option (list float64) :=
  sd !! s ≫= fun d => dict_get k d.2.

(** [P[i, j]] as a partial lookup. *)
Definition entry {A} (P : list (list A)) (i j : nat) : option A :=
  P !! i ≫= fun r => r !! j.

(** An array of [m] rows and [n] columns. *)
Definition has_shape {A} (m n : nat) (M : list (list A)) : Prop :=
  length M = m /\ Forall (fun r => length r = n) M.

(** The column of segment [k] in the [i]-th table of the returned tuple. *)
Definition pd_column (out : list Dict) (i : nat) (k : string) : option (list float64) :=
  out !! i ≫= dict_get k.

(** ** Sample data *)

Definition sample_frame : DataFrame :=
  {| columns := ["stage_1"; "stage_2"; "stage_3"];
     rows :=
       [ {| seg := "mortgage"; stage := "stage_1"; cells := [Fin 0; Fin 1; Fin 0] |};
         {| seg := "mortgage"; stage := "stage_2"; cells := [Fin 0; Fin 0; Fin 1] |};
         {| seg := "mortgage"; stage := "stage_3"; cells := [Fin 1; Fin 0; Fin 0] |};
         {| seg := "retail"; stage := "stage_1"; cells := [Fin 1; Fin 0; Fin 0] |};
         {| seg := "retail"; stage := "stage_2"; cells := [Fin (1#2); Fin 0; Fin (1#2)] |};
         {| seg := "retail"; stage := "stage_3"; cells := [Fin 0; Fin 0; Fin 1] |} ] |}.

Definition sample_frame_absorbed : DataFrame :=
  {| columns := ["stage_1"; "stage_2"; "stage_3"];
     rows :=
       [ {| seg := "mortgage"; stage := "stage_1"; cells := [Fin 0; Fin 1; Fin 0] |};
         {| seg := "mortgage"; stage := "stage_2"; cells := [Fin 0; Fin 0; Fin 1] |};
         {| seg := "mortgage"; stage := "stage_3"; cells := [Fin 0; Fin 0; Fin 1] |};
         {| seg := "retail"; stage := "stage_1"; cells := [Fin 1; Fin 0; Fin 0] |};
         {| seg := "retail"; stage := "stage_2"; cells := [Fin (1#2); Fin 0; Fin (1#2)] |};
         {| seg := "retail"; stage := "stage_3"; cells := [Fin 0; Fin 0; Fin 1] |} ] |}.

(** ** Stochastic matrices *)

(** The exact sum of a list of rationals. *)
Definition Qsum (r : list Q) : Q := foldr Qplus 0%Q r.

Definition nonneg (r : list Q) : Prop := Forall (fun x => (0 <= x)%Q) r.

(** A probability vector: non-negative entries that sum to one. *)
Definition stochastic_row (r : list Q) : Prop := nonneg r /\ (Qsum r == 1)%Q.

(** An [n] x [n] row-stochastic matrix. *)
Definition stochastic (n : nat) (M : list (list Q)) : Prop :=
  has_shape n n M /\ Forall stochastic_row M.

(** The [float64] array that holds the rationals of [M]. *)
Definition floats (M : list (list Q)) : list (list float64) := fmap (M:=list) Fin <$> M.

(** Every segment of the frame owns an [n] x [n] row-stochastic block whose
    last row is the unit vector of the last column. *)
Definition absorbing_stochastic (n : nat) (df : DataFrame) : Prop :=
  forall s, s ∈ segments df ->
    exists M : list (list Q),
      loc_values s df = floats M /\ stochastic n M /\
      M !! (n - 1)%nat = Some (unit_vector n (n - 1)).

(** [marg] is the sequence of first differences of [cum], led by the first
    value of [cum]. *)
Definition differences (marg cum : list float64) : Prop :=
  length marg = length cum /\
  marg !! 0%nat = cum !! 0%nat /\
  forall t a b, cum !! t = Some b -> cum !! S t = Some a ->
    marg !! S t = Some (fsub a b).

(** A table with a [recoveries] column, and one with a [cures] column only. *)
Definition sample_recoveries : CureTable :=
  {| categorical := [("recoveries", ["cured"; "recovered"; "stage_3"; "cured"])];
     balances := [25; 20; 50; 5]%Q |}.

Definition sample_cures_only : CureTable :=
  {| categorical := [("cures", ["cured"; "stage_3"])];
     balances := [40; 60]%Q |}.

(** The lexical order on labels. *)
Definition label_lt (x y : string) : Prop := String.compare x y = Lt.

(** The rational a frame cell stands for; a missing cell counts for 0. *)
Definition cell_value (x : float64) : Q :=
  match x with Fin q => q | _ => 0%Q end.

(** The non-exit records observed for a (segment, current stage) pair. *)
Definition observations (df : list Transition) (s c : string) : list Transition :=
  filter (fun r => next_stage r ≠ "exit" /\ loan_type r = s /\ current_stage r = c) df.

Definition record (s c n : string) (b : Q) : Transition :=
  {| loan_type := s; current_stage := c; next_stage := n; out_balance := b |}.

Definition sample_records : list Transition :=
  [ record "retail" "stage_1" "stage_1" 90;
    record "retail" "stage_1" "stage_3" 10;
    record "sme" "stage_2" "exit" 5;
    record "sme" "stage_2" "stage_1" 0 ].

(** A cell of the table before normalisation: missing, or a finite sum. *)
Definition raw_cell (x : float64) : Prop := x = NaN \/ exists q, x = Fin q.

(** The rationals of a normalised row whose total [S] is not zero. *)
Definition shares (S : Q) (v : list float64) : list Q :=
  (fun x => match x with Fin q => Qred (q / S) | _ => 0%Q end) <$> v.


(** A frame with a complete 3 x 3 block followed by a block of two rows,
    and a frame of one 4 x 4 block. *)
Definition ragged_frame : DataFrame :=
  {| columns := ["stage_1"; "stage_2"; "stage_3"];
     rows :=
       [ {| seg := "mortgage"; stage := "stage_1"; cells := [Fin 0; Fin 1; Fin 0] |};
         {| seg := "mortgage"; stage := "stage_2"; cells := [Fin 0; Fin 0; Fin 1] |};
         {| seg := "mortgage"; stage := "stage_3"; cells := [Fin 1; Fin 0; Fin 0] |};
         {| seg := "retail"; stage := "stage_1"; cells := [Fin 1; Fin 0; Fin 0] |};
         {| seg := "retail"; stage := "stage_2"; cells := [Fin 0; Fin 0; Fin 1] |} ] |}.

Definition sample_frame4 : DataFrame :=
  {| columns := ["stage_1"; "stage_2a"; "stage_2b"; "stage_3"];
     rows :=
       [ {| seg := "sme"; stage := "stage_1"; cells := [Fin 0; Fin 1; Fin 0; Fin 0] |};
         {| seg := "sme"; stage := "stage_2a"; cells := [Fin 0; Fin 0; Fin 1; Fin 0] |};
         {| seg := "sme"; stage := "stage_2b"; cells := [Fin 0; Fin 0; Fin 0; Fin 1] |};
         {| seg := "sme"; stage := "stage_3"; cells := [Fin 0; Fin 0; Fin 0; Fin 1] |} ] |}.

(** Every dictionary of [stage_dicts] has exactly the keys [ks], in that
    order. *)
Definition keys_are (ks : list string) (sd : StageDicts) : Prop :=
  Forall (fun d => d.1.*1 = ks /\ d.2.*1 = ks) sd.


(** The grouping column [by_col] exists and has the category [label] in
    one row of the table at least. *)
Definition has_label (df : CureTable) (by_col label : string) : Prop :=
  exists keys, get_column by_col (categorical df) = Some keys /\
    label ∈ (zip keys (balances df)).*1.


(** The lexical order on (Loan Segment, Current Stage) index entries. *)
Definition index_lt (p q : string * string) : Prop :=
  label_lt p.1 q.1 \/ (p.1 = q.1 /\ label_lt p.2 q.2).

(** [df.index]: the labels of the rows. *)
Definition index (df : DataFrame) : list (string * string) :=
  (fun r => (seg r, stage r)) <$> rows df.

(** Records that show three stages, as current and as next stage. *)
Definition sample_records3 : list Transition :=
  [ record "retail" "stage_1" "stage_1" 90;
    record "retail" "stage_1" "stage_2" 10;
    record "retail" "stage_2" "stage_3" 40;
    record "retail" "stage_2" "stage_1" 60;
    record "retail" "stage_3" "stage_3" 25;
    record "retail" "stage_3" "exit" 75 ].

(** The rationals of a row after [normalize='index'], when its total is
    finite and not zero. *)
Definition normalised_shares (v : list float64) : list Q :=
  shares (cell_value (nansum v)) v.


(** ** The draft module *)

(** [staging_4x4]: the stage label of a facility from its days past due. *)
Definition staging_4x4 (dpd : Z) : string :=
  if dpd <=? 30 then "stage_1"
  else if dpd <=? 60 then "stage_2a"
  else if dpd <=? 90 then "stage_2b"
  else "stage_3".

(** The body of the segment loop of the draft [extract_pds] for 3x3 blocks;
    the state is (stage_1_cumulative_dict, stage_1_marginal_dict,
    stage_2_cumulative_dict, stage_2_marginal_dict). *)
Definition draft_segment_step3 (df : DataFrame)
    (dicts : Dict * Dict * Dict * Dict) (loan_segment : string)
    : result (Dict * Dict * Dict * Dict) :=
  let '(stage_1_cumulative_dict, stage_1_marginal_dict,
        stage_2_cumulative_dict, stage_2_marginal_dict) := dicts in
  cumulative_pds_stage_1 ← cumulative (loc_values loan_segment df) 0 2;
  cumulative_pds_stage_2 ← cumulative (loc_values loan_segment df) 1 2;
  let marginal_pds_stage_1 := marginal cumulative_pds_stage_1 in
  let marginal_pds_stage_2 := marginal cumulative_pds_stage_2 in
  Ok (dict_set loan_segment cumulative_pds_stage_1 stage_1_cumulative_dict,
      dict_set loan_segment marginal_pds_stage_1 stage_1_marginal_dict,
      dict_set loan_segment cumulative_pds_stage_2 stage_2_cumulative_dict,
      dict_set loan_segment marginal_pds_stage_2 stage_2_marginal_dict).

(** The same for 4x4 blocks; the state is (stage_1_cumulative_dict,
    stage_1_marginal_dict, stage_2a_cumulative_dict, stage_2a_marginal_dict,
    stage_2b_cumulative_dict, stage_2b_marginal_dict). *)
Definition draft_segment_step4 (df : DataFrame)
    (dicts : Dict * Dict * Dict * Dict * Dict * Dict) (loan_segment : string)
    : result (Dict * Dict * Dict * Dict * Dict * Dict) :=
  let '(stage_1_cumulative_dict, stage_1_marginal_dict,
        stage_2a_cumulative_dict, stage_2a_marginal_dict,
        stage_2b_cumulative_dict, stage_2b_marginal_dict) := dicts in
  cumulative_pds_stage_1 ← cumulative (loc_values loan_segment df) 0 3;
  cumulative_pds_stage_2a ← cumulative (loc_values loan_segment df) 1 3;
  cumulative_pds_stage_2b ← cumulative (loc_values loan_segment df) 2 3;
  let marginal_pds_stage_1 := marginal cumulative_pds_stage_1 in
  let marginal_pds_stage_2a := marginal cumulative_pds_stage_2a in
  let marginal_pds_stage_2b := marginal cumulative_pds_stage_2b in
  Ok (dict_set loan_segment cumulative_pds_stage_1 stage_1_cumulative_dict,
      dict_set loan_segment marginal_pds_stage_1 stage_1_marginal_dict,
      dict_set loan_segment cumulative_pds_stage_2a stage_2a_cumulative_dict,
      dict_set loan_segment marginal_pds_stage_2a stage_2a_marginal_dict,
      dict_set loan_segment cumulative_pds_stage_2b stage_2b_cumulative_dict,
      dict_set loan_segment marginal_pds_stage_2b stage_2b_marginal_dict).

(** The draft [extract_pds] of [draft_functions.py].  It walks the level
    values of the index as they stand, once per row, and it falls off its
    end, returning [None], for a size other than 3 and 4. *)
Definition draft_extract_pds (matrices_df : loc) (matrix_size : Z)
    : State (option (list Dict)) :=
  if decide (matrix_size = 3) then
    df ← deref matrices_df;
    dicts ← lift (for_each (draft_segment_step3 df) (seg <$> rows df) ([], [], [], []));
    let '(stage_1_cuml, stage_1_marg, stage_2_cuml, stage_2_marg) := dicts in
    mret (Some [stage_1_cuml; stage_2_cuml; stage_1_marg; stage_2_marg])
  else if decide (matrix_size = 4) then
    df ← deref matrices_df;
    dicts ← lift (for_each (draft_segment_step4 df) (seg <$> rows df)
                           ([], [], [], [], [], []));
    let '(stage_1_cuml, stage_1_marg, stage_2a_cuml, stage_2a_marg,
          stage_2b_cuml, stage_2b_marg) := dicts in
    mret (Some [stage_1_cuml; stage_2a_cuml; stage_2b_cuml;
                stage_1_marg; stage_2a_marg; stage_2b_marg])
  else mret None.

(** A computation of the final module seen from a caller of the draft one:
    the returned tuple is a value that is not [None]. *)
Definition returning_some {A} (r : result A * gmap nat DataFrame)
    : result (option A) * gmap nat DataFrame :=
  match r with
  | (Ok a, h) => (Ok (Some a), h)
  | (Raise e, h) => (Raise e, h)
  end.

(** The stage dictionaries of the final module that hold the dictionaries
    of the draft one. *)
Definition stage_dicts3 (dicts : Dict * Dict * Dict * Dict) : StageDicts :=
  let '(c1, m1, c2, m2) := dicts in [(c1, m1); (c2, m2)].
Definition stage_dicts4 (dicts : Dict * Dict * Dict * Dict * Dict * Dict) : StageDicts :=
  let '(c1, m1, c2, m2, c3, m3) := dicts in [(c1, m1); (c2, m2); (c3, m3)].
(** * Properties *)

(** ** Comprehensions and loops *)

Lemma comprehension_ok {A B} (f : A -> result B) (g : A -> B) (xs : list A) :
  (forall x, x ∈ xs -> f x = Ok (g x)) ->
  comprehension f xs = Ok (g <$> xs).
Proof.
  induction xs as [|x xs IH]; intros Hf; simpl; [done|].
  rewrite (Hf x) by set_solver. simpl.
  rewrite IH by (intros; apply Hf; set_solver). done.
Qed.

Lemma comprehension_inv {A B} (f : A -> result B) (xs : list A) (ys : list B) :
  comprehension f xs = Ok ys ->
  length ys = length xs /\
  forall i x, xs !! i = Some x -> exists y, ys !! i = Some y /\ f x = Ok y.
Proof.
  revert ys. induction xs as [|x xs IH]; intros ys; simpl.
  - intros [= <-]. split; [done|]. intros i x Hx. by rewrite lookup_nil in Hx.
  - destruct (f x) as [y|e] eqn:Hy; simpl; [|done].
    destruct (comprehension f xs) as [ys'|e] eqn:Hys; simpl; [|done].
    intros [= <-]. destruct (IH ys' eq_refl) as [Hlen Hnth].
    split; [simpl; by rewrite Hlen|].
    intros [|i] x' Hx'; simpl in *.
    + injection Hx' as <-. eauto.
    + by apply Hnth.
Qed.

Lemma comprehension_raise {A B} (f : A -> result B) (xs : list A) (e : exn) :
  comprehension f xs = Raise e -> exists x, x ∈ xs /\ f x = Raise e.
Proof.
  induction xs as [|x xs IH]; simpl; [done|].
  destruct (f x) as [y|e'] eqn:Hy; simpl.
  - destruct (comprehension f xs) as [ys'|e'] eqn:Hys; simpl; [done|].
    intros [= ->]. destruct (IH eq_refl) as (x' & Hin & Hx').
    exists x'. split; [set_solver|done].
  - intros [= ->]. exists x. split; [set_solver|done].
Qed.

(** ** Labels of an index *)

Lemma unique_elem (x : string) (l : list string) : x ∈ unique l <-> x ∈ l.
Proof.
  induction l as [|y l IH]; simpl; [done|].
  rewrite !elem_of_cons, list_elem_of_filter, IH.
  destruct (decide (x = y)); naive_solver.
Qed.

Lemma unique_NoDup (l : list string) : NoDup (unique l).
Proof.
  induction l as [|y l IH]; simpl; [constructor|].
  constructor.
  - rewrite list_elem_of_filter. naive_solver.
  - by apply NoDup_filter.
Qed.

Lemma segments_elem (s : string) (df : DataFrame) :
  s ∈ segments df <-> exists r, r ∈ rows df /\ seg r = s.
Proof.
  unfold segments. rewrite unique_elem, list_elem_of_fmap. naive_solver.
Qed.

(** ** Writing one row through a segment view *)

Lemma set_row_seg (s : string) (v : list float64) (rs : list Row) (k : nat) :
  seg <$> set_row s k v rs = seg <$> rs.
Proof.
  revert k. induction rs as [|r rs IH]; intros k; simpl; [done|].
  destruct (decide (seg r = s)).
  - destruct k; simpl; [done|]. by rewrite IH.
  - simpl. by rewrite IH.
Qed.


Lemma set_row_other (s s' : string) (v : list float64) (rs : list Row) (k : nat) :
  s' ≠ s ->
  filter (fun r => seg r = s') (set_row s k v rs) = filter (fun r => seg r = s') rs.
Proof.
  intros Hne. revert k. induction rs as [|r rs IH]; intros k; simpl; [done|].
  destruct (decide (seg r = s)) as [Hs|Hs].
  - destruct k; simpl.
    + rewrite !filter_cons. simpl. rewrite !decide_False by congruence. done.
    + rewrite !filter_cons. rewrite IH. done.
  - rewrite !filter_cons. rewrite IH. done.
Qed.

Lemma set_row_same (s : string) (v : list float64) (rs : list Row) (k : nat) :
  cells <$> filter (fun r => seg r = s) (set_row s k v rs)
  = <[k := v]> (cells <$> filter (fun r => seg r = s) rs).
Proof.
  revert k. induction rs as [|r rs IH]; intros k; simpl; [done|].
  destruct (decide (seg r = s)) as [Hs|Hs].
  - destruct k; simpl.
    + rewrite !filter_cons. simpl. rewrite !decide_True by done. done.
    + rewrite !filter_cons. rewrite !decide_True by done. simpl. by rewrite IH.
  - rewrite !filter_cons. rewrite !decide_False by done. apply IH.
Qed.

Lemma set_row_count (s s' : string) (v : list float64) (rs : list Row) (k : nat) :
  length (filter (fun r => seg r = s') (set_row s k v rs))
  = length (filter (fun r => seg r = s') rs).
Proof.
  destruct (decide (s' = s)) as [->|Hne].
  - rewrite <- (length_fmap cells), set_row_same, length_insert, length_fmap. done.
  - by rewrite set_row_other.
Qed.

Lemma set_row_idemp (s : string) (v : list float64) (rs : list Row) (k : nat) :
  set_row s k v (set_row s k v rs) = set_row s k v rs.
Proof.
  revert k. induction rs as [|r rs IH]; intros k; simpl; [done|].
  destruct (decide (seg r = s)) as [Hs|Hs].
  - destruct k; simpl.
    + rewrite decide_True by done. done.
    + rewrite decide_True by done. by rewrite IH.
  - simpl. rewrite decide_False by done. by rewrite IH.
Qed.

Lemma set_row_comm (s s' : string) (v v' : list float64) (rs : list Row) (k k' : nat) :
  s ≠ s' ->
  set_row s k v (set_row s' k' v' rs) = set_row s' k' v' (set_row s k v rs).
Proof.
  intros Hne. revert k k'. induction rs as [|r rs IH]; intros k k'; simpl; [done|].
  destruct (decide (seg r = s')) as [Hs'|Hs'], (decide (seg r = s)) as [Hs|Hs];
    try congruence.
  - destruct k'; simpl.
    + rewrite decide_False by congruence. simpl. rewrite decide_True by done. done.
    + rewrite decide_False by congruence. simpl. rewrite decide_True by done.
      by rewrite IH.
  - destruct k; simpl.
    + rewrite decide_True by done. rewrite decide_False by (simpl; congruence). done.
    + rewrite decide_True by done. rewrite decide_False by congruence. by rewrite IH.
  - simpl. rewrite decide_False by done. rewrite decide_False by done. by rewrite IH.
Qed.

Lemma absorb_rows_head (k : nat) (v : list float64) (segs : list string) (rs : list Row) (a : string) :
  set_row a k v (absorb_rows k v segs (set_row a k v rs))
  = absorb_rows k v segs (set_row a k v rs).
Proof.
  unfold absorb_rows. revert rs. induction segs as [|b segs IH]; intros rs; simpl.
  - apply set_row_idemp.
  - destruct (decide (a = b)) as [->|Hab].
    + rewrite set_row_idemp. apply IH.
    + rewrite (set_row_comm b a) by done. apply IH.
Qed.

Lemma absorb_rows_in (k : nat) (v : list float64) (segs : list string) (rs : list Row) (s : string) :
  s ∈ segs -> set_row s k v (absorb_rows k v segs rs) = absorb_rows k v segs rs.
Proof.
  revert rs. induction segs as [|a segs IH]; intros rs Hin.
  - by apply elem_of_nil in Hin.
  - change (absorb_rows k v (a :: segs) rs) with (absorb_rows k v segs (set_row a k v rs)).
    destruct (decide (s = a)) as [->|Hne].
    + apply absorb_rows_head.
    + apply IH. set_solver.
Qed.

Lemma absorb_rows_twice (k : nat) (v : list float64) (segs : list string) (rs : list Row) :
  absorb_rows k v segs (absorb_rows k v segs rs) = absorb_rows k v segs rs.
Proof.
  assert (forall l, l ⊆ segs ->
    absorb_rows k v l (absorb_rows k v segs rs) = absorb_rows k v segs rs) as Hgen.
  { induction l as [|a l IH]; intros Hsub; [done|].
    change (absorb_rows k v (a :: l) ?x) with (absorb_rows k v l (set_row a k v x)).
    rewrite absorb_rows_in by set_solver. apply IH. set_solver. }
  by apply Hgen.
Qed.

Lemma absorb_rows_seg (k : nat) (v : list float64) (segs : list string) (rs : list Row) :
  seg <$> absorb_rows k v segs rs = seg <$> rs.
Proof.
  unfold absorb_rows. revert rs. induction segs as [|a segs IH]; intros rs; simpl; [done|].
  by rewrite IH, set_row_seg.
Qed.


Lemma absorb_rows_values (k : nat) (v : list float64) (segs : list string) (rs : list Row) (s : string) :
  cells <$> filter (fun r => seg r = s) (absorb_rows k v segs rs)
  = if decide (s ∈ segs) then <[k := v]> (cells <$> filter (fun r => seg r = s) rs)
    else cells <$> filter (fun r => seg r = s) rs.
Proof.
  unfold absorb_rows. revert rs. induction segs as [|a segs IH]; intros rs.
  - case_decide; [set_solver|done].
  - cbn [foldl]. rewrite IH. destruct (decide (s = a)) as [->|Hne].
    + rewrite set_row_same.
      repeat case_decide; try set_solver.
      by rewrite list_insert_insert_eq.
    + rewrite set_row_other by done.
      repeat case_decide; set_solver.
Qed.

(** ** The loop of [absorbing_state] *)

Lemma deref_run (l : loc) (h : gmap nat DataFrame) (df : DataFrame) :
  h !! l = Some df -> deref l h = (Ok df, h).
Proof. intros Hl. unfold deref. by rewrite Hl. Qed.

Lemma setitem_run (l : loc) (s : string) (k : nat) (v : list float64)
    (h : gmap nat DataFrame) (df : DataFrame) :
  h !! l = Some df ->
  setitem_loc_iloc l s k v h =
    if decide (loc_rows s df = []) then (Raise (KeyError s), h)
    else if decide (length (loc_rows s df) ≤ k)%nat then (Raise (IndexError enlarge_msg), h)
    else if decide (length v ≠ length (columns df)) then (Raise (ValueError shape_msg), h)
    else (Ok (), <[l := {| columns := columns df; rows := set_row s k v (rows df) |}]> h).
Proof.
  intros Hl. unfold setitem_loc_iloc, mbind, State_bind. rewrite (deref_run _ _ _ Hl).
  repeat case_decide; reflexivity.
Qed.

Lemma loc_rows_set_row (s s' : string) (k : nat) (v : list float64) (df : DataFrame) :
  length (loc_rows s' {| columns := columns df; rows := set_row s k v (rows df) |})
  = length (loc_rows s' df).
Proof. unfold loc_rows. simpl. apply set_row_count. Qed.

Lemma for_in_setitem_ok (l : loc) (k : nat) (v : list float64) (segs : list string) :
  forall (h : gmap nat DataFrame) (df : DataFrame),
  h !! l = Some df ->
  Forall (fun s => (k < length (loc_rows s df))%nat) segs ->
  (segs ≠ [] -> length v = length (columns df)) ->
  for_in segs (fun s => setitem_loc_iloc l s k v) h
  = (Ok (), <[l := {| columns := columns df; rows := absorb_rows k v segs (rows df) |}]> h).
Proof.
  induction segs as [|s segs IH]; intros h df Hl Hk Hv.
  - simpl. unfold mret, State_ret. f_equal. symmetry. apply insert_id.
    rewrite Hl. by destruct df.
  - apply Forall_cons in Hk as [Hs Hk]. specialize (Hv ltac:(done)).
    cbn [for_in]. unfold mbind, State_bind. rewrite (setitem_run _ _ _ _ _ _ Hl).
    rewrite decide_False by (intros E; rewrite E in Hs; simpl in Hs; lia).
    rewrite decide_False by lia.
    rewrite decide_False by (intros E; by apply E).
    set (df1 := {| columns := columns df; rows := set_row s k v (rows df) |}).
    rewrite (IH _ df1).
    + by rewrite insert_insert_eq.
    + apply lookup_insert_eq.
    + eapply Forall_impl; [exact Hk|]. intros s'. simpl. unfold df1.
      by rewrite loc_rows_set_row.
    + done.
Qed.

Lemma for_in_setitem_inv (l : loc) (k : nat) (v : list float64) (segs : list string) :
  forall (h h' : gmap nat DataFrame) (df : DataFrame) u,
  h !! l = Some df ->
  for_in segs (fun s => setitem_loc_iloc l s k v) h = (Ok u, h') ->
  Forall (fun s => (k < length (loc_rows s df))%nat) segs /\
  (segs ≠ [] -> length v = length (columns df)).
Proof.
  induction segs as [|s segs IH]; intros h h' df u Hl Hrun.
  - split; [constructor|done].
  - cbn [for_in] in Hrun. unfold mbind, State_bind in Hrun.
    rewrite (setitem_run _ _ _ _ _ _ Hl) in Hrun.
    repeat case_decide; try discriminate Hrun.
    set (df1 := {| columns := columns df; rows := set_row s k v (rows df) |}) in *.
    destruct (IH _ _ df1 _ (lookup_insert_eq _ _ _) Hrun) as [Hk _].
    split.
    + constructor; [lia|].
      eapply Forall_impl; [exact Hk|]. intros s'. simpl. unfold df1.
      by rewrite loc_rows_set_row.
    + intros _. destruct (decide (length v = length (columns df))); [done|tauto].
Qed.

Lemma for_in_setitem_raise (l : loc) (k : nat) (v : list float64) (segs : list string) :
  forall (h h' : gmap nat DataFrame) (e : exn),
  for_in segs (fun s => setitem_loc_iloc l s k v) h = (Raise e, h') ->
  setitem_exn e.
Proof.
  induction segs as [|s segs IH]; intros h h' e Hrun.
  - discriminate Hrun.
  - cbn [for_in] in Hrun. unfold mbind, State_bind in Hrun.
    destruct (setitem_loc_iloc l s k v h) as [[u|e'] h1] eqn:Hstep.
    + by eapply IH.
    + injection Hrun as -> ->. revert Hstep.
      unfold setitem_loc_iloc, mbind, State_bind, deref, raise, store.
      destruct (h !! l) as [df|]; unfold setitem_exn.
      * repeat case_decide; intros [= <- <-] || intros [=]; eauto.
      * intros [= <- <-]. eauto.
Qed.

Lemma absorbing_state_run (l : loc) (matrix_size : Z) (h : gmap nat DataFrame) :
  matrix_size ∈ [3; 4] ->
  absorbing_state l matrix_size h =
    match h !! l with
    | None => (Raise (KeyError "dangling reference"), h)
    | Some df =>
        match for_in (segments df) (fun s =>
                setitem_loc_iloc l s (Z.to_nat (matrix_size - 1))
                  (absorbing_row (Z.to_nat matrix_size))) h with
        | (Ok _, h') => (Ok l, h')
        | (Raise e, h') => (Raise e, h')
        end
    end.
Proof.
  intros Hsize.
  assert (matrix_size = 3 \/ matrix_size = 4) as [-> | ->] by set_solver.
  all: unfold absorbing_state; rewrite decide_False by (intros Hn; apply Hn; set_solver).
  - rewrite (decide_True (P := 3 = 3)) by done.
    unfold mbind, State_bind, deref.
    destruct (h !! l) as [df|]; [|reflexivity].
    change (Z.to_nat (3 - 1)) with 2%nat.
    change (absorbing_row (Z.to_nat 3)) with [Fin 0; Fin 0; Fin 1].
    destruct (for_in _ _ h) as [[[]|e] h']; reflexivity.
  - rewrite (decide_False (P := 4 = 3)) by done.
    rewrite (decide_True (P := 4 = 4)) by done.
    unfold mbind, State_bind, deref.
    destruct (h !! l) as [df|]; [|reflexivity].
    change (Z.to_nat (4 - 1)) with 3%nat.
    change (absorbing_row (Z.to_nat 4)) with [Fin 0; Fin 0; Fin 0; Fin 1].
    destruct (for_in _ _ h) as [[[]|e] h']; reflexivity.
Qed.

(** ** Shapes of products and powers *)

Section Shapes.
Context {A : Type} `{Arith A}.

Lemma vec_mat_length (n : nat) (r : list A) (B : list (list A)) :
  Forall (fun b => length b = n) B -> length (vec_mat n r B) = n.
Proof.
  revert r. induction B as [|b B IH]; intros r HB.
  - destruct r; simpl; apply length_replicate.
  - destruct r as [|c r]; simpl; [apply length_replicate|].
    apply Forall_cons in HB as [Hb HB].
    unfold vadd, vscale. rewrite length_zip_with, length_fmap, Hb, IH by done. lia.
Qed.

Lemma mat_mul_shape (m n : nat) (P B : list (list A)) :
  length P = m -> Forall (fun b => length b = n) B -> has_shape m n (mat_mul n P B).
Proof.
  intros HP HB. split.
  - unfold mat_mul. by rewrite length_fmap.
  - unfold mat_mul. apply Forall_forall. intros r Hr.
    apply list_elem_of_fmap in Hr as (r' & -> & _). by apply vec_mat_length.
Qed.

Lemma identity_shape (n : nat) : has_shape n n (identity n).
Proof.
  split.
  - unfold identity. by rewrite length_fmap, length_seq.
  - unfold identity. apply Forall_forall. intros r Hr.
    apply list_elem_of_fmap in Hr as (i & -> & _).
    unfold unit_vector. by rewrite length_fmap, length_seq.
Qed.

Lemma mat_pow_shape (n : nat) (M : list (list A)) (t : nat) :
  has_shape n n M -> has_shape n n (mat_pow M t).
Proof.
  intros HM. induction t as [|t IH].
  - simpl. destruct HM as [-> _]. apply identity_shape.
  - destruct t as [|t]; [exact HM|].
    change (mat_pow M (S (S t))) with (mat_mul (length M) (mat_pow M (S t)) M).
    destruct HM as [HM1 HM2]. rewrite HM1.
    apply mat_mul_shape; [apply IH|done].
Qed.

Lemma is_square_shape (M : list (list A)) :
  is_square M = true <-> has_shape (length M) (length M) M.
Proof.
  unfold is_square, has_shape. rewrite forallb_forall, Forall_forall.
  split.
  - intros Hsq. split; [done|]. intros r Hr.
    apply Nat.eqb_eq, Hsq. by apply list_elem_of_In.
  - intros [_ Hsq] r Hr. apply Nat.eqb_eq, Hsq. by apply list_elem_of_In.
Qed.

Lemma entry_in_shape (m n : nat) (P : list (list A)) (i j : nat) :
  has_shape m n P -> (i < m)%nat -> (j < n)%nat -> exists x, entry P i j = Some x.
Proof.
  intros [Hm Hn] Hi Hj. unfold entry.
  destruct (lookup_lt_is_Some_2 P i) as [r Hr]; [lia|].
  rewrite Hr. simpl. apply lookup_lt_is_Some_2.
  rewrite Forall_forall in Hn. rewrite (Hn r); [done|].
  by eapply list_elem_of_lookup_2.
Qed.

Lemma index2_entry (P : list (list A)) (i j : nat) (x : A) :
  index2 P i j = Ok x <-> entry P i j = Some x.
Proof.
  unfold index2, entry. destruct (P !! i) as [r|]; cbn; [|split; intros Hx; inversion Hx].
  destruct (r !! j); split; intros Hx; inversion Hx; done.
Qed.

(** The sequence [cumulative] returns, when it returns. *)
Lemma cumulative_inv (M : list (list A)) (row col : nat) (c : list A) :
  cumulative M row col = Ok c ->
  is_square M = true /\ length c = 300%nat /\
  forall t, (1 <= t <= 300)%nat ->
    exists x, c !! (t - 1)%nat = Some x /\ entry (mat_pow M t) row col = Some x.
Proof.
  unfold cumulative. intros Hc.
  apply comprehension_inv in Hc as [Hlen Hnth].
  rewrite length_seq in Hlen.
  assert (is_square M = true) as Hsq.
  { destruct (Hnth 0%nat 1%nat eq_refl) as (y & _ & Hy).
    unfold matrix_power in Hy. by destruct (is_square M). }
  split; [done|]. split; [done|].
  intros t Ht.
  destruct (Hnth (t - 1)%nat t) as (y & Hy1 & Hy2).
  { rewrite lookup_seq. split; [f_equal|]; lia. }
  exists y. split; [done|].
  unfold matrix_power in Hy2. rewrite Hsq in Hy2. simpl in Hy2.
  by apply index2_entry.
Qed.

(** It returns on every square matrix that has the entry asked for. *)
Lemma cumulative_ok (n : nat) (M : list (list A)) (row col : nat) :
  has_shape n n M -> (row < n)%nat -> (col < n)%nat ->
  exists c, cumulative M row col = Ok c.
Proof.
  intros HM Hrow Hcol.
  assert (is_square M = true) as Hsq.
  { apply is_square_shape. destruct HM as [HM1 HM2]. by rewrite HM1. }
  assert (forall t, exists x, entry (mat_pow M t) row col = Some x) as Hex.
  { intros t. eapply entry_in_shape; [by apply mat_pow_shape|done..]. }
  set (g := fun t => match entry (mat_pow M t) row col with Some x => x | None => zero end).
  exists (g <$> seq 1 300). unfold cumulative.
  apply comprehension_ok. intros t _.
  unfold matrix_power. rewrite Hsq. simpl.
  apply index2_entry. unfold g. destruct (Hex t) as [x ->]. done.
Qed.

Lemma cumulative_raise (M : list (list A)) (row col : nat) (e : exn) :
  cumulative M row col = Raise e ->
  (exists m, e = LinAlgError m) \/ (exists m, e = IndexError m).
Proof.
  unfold cumulative. intros Hc.
  apply comprehension_raise in Hc as (t & _ & Ht).
  unfold matrix_power in Ht. destruct (is_square M); simpl in Ht.
  - unfold index2 in Ht. repeat case_match; naive_solver.
  - naive_solver.
Qed.

(** ** Differencing *)

Lemma marginal_length (c : list A) : length (marginal c) = length c.
Proof. unfold marginal. by rewrite length_fmap, length_seq. Qed.

Lemma marginal_first (c : list A) : marginal c !! 0%nat = c !! 0%nat.
Proof. by destruct c. Qed.

Lemma marginal_next (c : list A) (t : nat) (a b : A) :
  c !! t = Some b -> c !! S t = Some a -> marginal c !! S t = Some (sub a b).
Proof.
  intros Hb Ha. unfold marginal.
  rewrite list_lookup_fmap, lookup_seq_lt by (by eapply lookup_lt_Some).
  simpl. rewrite Nat.sub_0_r.
  by rewrite (nth_lookup_Some _ _ _ _ Ha), (nth_lookup_Some _ _ _ _ Hb).
Qed.
End Shapes.

(** ** The dictionaries of [extract_pds] *)

Lemma dict_get_set_eq (k : string) (v : list float64) (d : Dict) :
  dict_get k (dict_set k v d) = Some v.
Proof.
  induction d as [|[k' v'] d IH]; simpl.
  - by rewrite decide_True.
  - destruct (decide (k' = k)) as [->|Hne]; simpl.
    + by rewrite decide_True.
    + by rewrite decide_False.
Qed.

Lemma dict_get_set_ne (k k' : string) (v : list float64) (d : Dict) :
  k' ≠ k -> dict_get k' (dict_set k v d) = dict_get k' d.
Proof.
  intros Hne. induction d as [|[k0 v0] d IH]; simpl.
  - by rewrite decide_False.
  - destruct (decide (k0 = k)) as [->|Hk0]; simpl.
    + by rewrite !decide_False.
    + destruct (decide (k0 = k')); done.
Qed.

Lemma pd_stage_step_inv (M : list (list float64)) (matrix_size : Z) (k : string)
    (sd sd' : StageDicts) (s : nat) :
  pd_stage_step M matrix_size k sd s = Ok sd' ->
  exists cum, cumulative M s (Z.to_nat (matrix_size - 1)) = Ok cum /\
    sd' = alter (fun d => (dict_set k cum d.1, dict_set k (marginal cum) d.2)) s sd.
Proof.
  unfold pd_stage_step.
  destruct (cumulative M s (Z.to_nat (matrix_size - 1))) as [cum|e]; simpl; [|done].
  intros [= <-]. eauto.
Qed.

Lemma get_alter_other (sd : StageDicts) (a s : nat) (k k' : string) (c m : list float64) :
  k' ≠ k ->
  let sd1 := alter (fun d => (dict_set k c d.1, dict_set k m d.2)) a sd in
  get_cum sd1 s k' = get_cum sd s k' /\ get_marg sd1 s k' = get_marg sd s k'.
Proof.
  intros Hne sd1. unfold get_cum, get_marg, sd1.
  destruct (decide (a = s)) as [->|Has].
  - rewrite list_lookup_alter_eq. destruct (sd !! s) as [[d1 d2]|]; simpl; [|done].
    by rewrite !dict_get_set_ne.
  - by rewrite list_lookup_alter_ne.
Qed.

Lemma get_alter_same (sd : StageDicts) (s : nat) (k : string) (c m : list float64) :
  (s < length sd)%nat ->
  let sd1 := alter (fun d => (dict_set k c d.1, dict_set k m d.2)) s sd in
  get_cum sd1 s k = Some c /\ get_marg sd1 s k = Some m.
Proof.
  intros Hs sd1. unfold get_cum, get_marg, sd1.
  rewrite list_lookup_alter_eq.
  destruct (lookup_lt_is_Some_2 sd s Hs) as [[d1 d2] ->]. simpl.
  by rewrite !dict_get_set_eq.
Qed.

Lemma stage_loop_inv (M : list (list float64)) (matrix_size : Z) (k : string)
    (stages : list nat) :
  forall sd sd' : StageDicts,
  for_each (pd_stage_step M matrix_size k) stages sd = Ok sd' ->
  length sd' = length sd /\
  (forall s k', k' ≠ k ->
     get_cum sd' s k' = get_cum sd s k' /\ get_marg sd' s k' = get_marg sd s k') /\
  (forall s, s ∉ stages -> sd' !! s = sd !! s) /\
  (forall s, s ∈ stages -> (s < length sd)%nat ->
     exists cum, cumulative M s (Z.to_nat (matrix_size - 1)) = Ok cum /\
       get_cum sd' s k = Some cum /\ get_marg sd' s k = Some (marginal cum)).
Proof.
  induction stages as [|a stages IH]; intros sd sd' Hrun.
  - injection Hrun as <-. repeat split; try done. intros s Hs. by apply elem_of_nil in Hs.
  - cbn [for_each] in Hrun.
    destruct (pd_stage_step M matrix_size k sd a) as [sd1|e] eqn:Hstep; [|done].
    simpl in Hrun. apply pd_stage_step_inv in Hstep as (cum & Hcum & ->).
    set (sd1 := alter _ a sd) in *.
    destruct (IH _ _ Hrun) as (Hlen & Hother & Hout & Hin).
    assert (length sd1 = length sd) as Hlen1 by apply length_alter.
    split; [congruence|]. split; [|split].
    + intros s k' Hne. destruct (Hother s k' Hne) as [-> ->].
      by apply get_alter_other.
    + intros s Hs. rewrite Hout by set_solver.
      apply list_lookup_alter_ne. set_solver.
    + intros s Hs Hlt. destruct (decide (s ∈ stages)) as [Hs'|Hs'].
      * apply Hin; [done|lia].
      * assert (s = a) as -> by set_solver.
        exists cum. split; [done|].
        unfold get_cum, get_marg. rewrite (Hout a Hs').
        by apply get_alter_same.
Qed.

Lemma stage_loop_ok (M : list (list float64)) (matrix_size : Z) (k : string)
    (stages : list nat) :
  (forall s, s ∈ stages -> exists cum, cumulative M s (Z.to_nat (matrix_size - 1)) = Ok cum) ->
  forall sd, exists sd', for_each (pd_stage_step M matrix_size k) stages sd = Ok sd'.
Proof.
  induction stages as [|a stages IH]; intros Hok sd; [by eexists|].
  cbn [for_each].
  destruct (Hok a) as [cum Hcum]; [set_solver|].
  destruct (pd_stage_step M matrix_size k sd a) as [sd1|e] eqn:Hstep.
  - simpl. apply IH. intros s Hs. apply Hok. set_solver.
  - unfold pd_stage_step in Hstep. by rewrite Hcum in Hstep.
Qed.

Lemma stage_loop_raise (M : list (list float64)) (matrix_size : Z) (k : string)
    (stages : list nat) (e : exn) :
  forall sd, for_each (pd_stage_step M matrix_size k) stages sd = Raise e ->
  (exists m, e = LinAlgError m) \/ (exists m, e = IndexError m).
Proof.
  induction stages as [|a stages IH]; intros sd Hrun; [done|].
  cbn [for_each] in Hrun.
  destruct (pd_stage_step M matrix_size k sd a) as [sd1|e'] eqn:Hstep; simpl in Hrun.
  - by eapply IH.
  - injection Hrun as ->. unfold pd_stage_step in Hstep.
    destruct (cumulative M a _) as [cum|e'] eqn:Hcum; simpl in Hstep; [done|].
    injection Hstep as ->. exact (cumulative_raise _ _ _ _ Hcum).
Qed.

Lemma segment_loop_inv (df : DataFrame) (matrix_size : Z) (segs : list string) :
  forall sd sd' : StageDicts,
  for_each (pd_segment_step df matrix_size) segs sd = Ok sd' ->
  length sd' = length sd /\
  (forall s k, k ∉ segs ->
     get_cum sd' s k = get_cum sd s k /\ get_marg sd' s k = get_marg sd s k) /\
  (forall s k, k ∈ segs -> (s < Z.to_nat (matrix_size - 1))%nat -> (s < length sd)%nat ->
     exists cum, cumulative (loc_values k df) s (Z.to_nat (matrix_size - 1)) = Ok cum /\
       get_cum sd' s k = Some cum /\ get_marg sd' s k = Some (marginal cum)).
Proof.
  induction segs as [|a segs IH]; intros sd sd' Hrun.
  - injection Hrun as <-. repeat split; try done. intros s k Hk. by apply elem_of_nil in Hk.
  - cbn [for_each] in Hrun.
    destruct (pd_segment_step df matrix_size sd a) as [sd1|e] eqn:Hstep; [|done].
    simpl in Hrun. unfold pd_segment_step in Hstep.
    apply stage_loop_inv in Hstep as (Hlen1 & Hother1 & _ & Hin1).
    destruct (IH _ _ Hrun) as (Hlen & Hother & Hin).
    split; [congruence|]. split.
    + intros s k Hk. destruct (Hother s k) as [-> ->]; [set_solver|].
      apply Hother1. set_solver.
    + intros s k Hk Hs Hlt. destruct (decide (k ∈ segs)) as [Hk'|Hk'].
      * apply Hin; [done|done|lia].
      * assert (k = a) as -> by set_solver.
        destruct (Hin1 s) as (cum & Hcum & Hc & Hm); [|done|].
        { apply elem_of_seq. lia. }
        exists cum. split; [done|].
        destruct (Hother s a Hk') as [-> ->]. done.
Qed.

Lemma segment_loop_ok (df : DataFrame) (matrix_size : Z) (segs : list string) :
  (forall k s, k ∈ segs -> (s < Z.to_nat (matrix_size - 1))%nat ->
     exists cum, cumulative (loc_values k df) s (Z.to_nat (matrix_size - 1)) = Ok cum) ->
  forall sd, exists sd', for_each (pd_segment_step df matrix_size) segs sd = Ok sd'.
Proof.
  induction segs as [|a segs IH]; intros Hok sd; [by eexists|].
  cbn [for_each].
  destruct (stage_loop_ok (loc_values a df) matrix_size a
              (seq 0 (Z.to_nat (matrix_size - 1)))) with (sd := sd) as [sd1 Hsd1].
  { intros s Hs. apply Hok; [set_solver|]. apply elem_of_seq in Hs. lia. }
  replace (pd_segment_step df matrix_size sd a) with (Ok (A:=StageDicts) sd1).
  simpl. apply IH. intros k s Hk. apply Hok. set_solver.
Qed.

Lemma segment_loop_raise (df : DataFrame) (matrix_size : Z) (segs : list string) (e : exn) :
  forall sd, for_each (pd_segment_step df matrix_size) segs sd = Raise e ->
  (exists m, e = LinAlgError m) \/ (exists m, e = IndexError m).
Proof.
  induction segs as [|a segs IH]; intros sd Hrun; [done|].
  cbn [for_each] in Hrun.
  destruct (pd_segment_step df matrix_size sd a) as [sd1|e'] eqn:Hstep; simpl in Hrun.
  - by eapply IH.
  - injection Hrun as ->. by eapply stage_loop_raise.
Qed.

Lemma extract_pds_run (l : loc) (matrix_size : Z) (h : gmap nat DataFrame) :
  matrix_size ∈ [3; 4] ->
  extract_pds l matrix_size h =
    match h !! l with
    | None => (Raise (KeyError "dangling reference"), h)
    | Some df =>
        match for_each (pd_segment_step df matrix_size) (segments df)
                (replicate (Z.to_nat (matrix_size - 1)) ([], [])) with
        | Ok sd => (Ok ((fst <$> sd) ++ (snd <$> sd)), h)
        | Raise e => (Raise e, h)
        end
    end.
Proof.
  intros Hsize. unfold extract_pds.
  rewrite decide_False by (intros Hn; by apply Hn).
  unfold mbind, State_bind, deref, lift.
  destruct (h !! l) as [df|]; [|done].
  by destruct (for_each _ _ _).
Qed.

(** ** Well-shaped frames *)

Lemma well_shaped_block (n : nat) (df : DataFrame) (s : string) :
  well_shaped n df -> s ∈ segments df -> has_shape n n (loc_values s df).
Proof.
  intros (_ & Hrows & Hsegs) Hs. unfold has_shape, loc_values. split.
  - rewrite length_fmap. rewrite Forall_forall in Hsegs. by apply Hsegs.
  - apply Forall_fmap. unfold loc_rows.
    apply Forall_forall. intros r Hr. apply list_elem_of_filter in Hr as [_ Hr].
    rewrite Forall_forall in Hrows. by apply Hrows.
Qed.

Lemma sample_frame_well_shaped : well_shaped 3 sample_frame.
Proof.
  unfold well_shaped. split; [reflexivity|]. split.
  - repeat constructor.
  - vm_compute. repeat constructor.
Qed.

Lemma pd_column_cum (sd : StageDicts) (s : nat) (k : string) :
  (s < length sd)%nat ->
  pd_column ((fst <$> sd) ++ (snd <$> sd)) s k = get_cum sd s k.
Proof.
  intros Hs. unfold pd_column, get_cum.
  rewrite lookup_app_l by (by rewrite length_fmap).
  rewrite list_lookup_fmap. by destruct (sd !! s).
Qed.

Lemma pd_column_marg (sd : StageDicts) (s : nat) (k : string) :
  pd_column ((fst <$> sd) ++ (snd <$> sd)) (length sd + s) k = get_marg sd s k.
Proof.
  unfold pd_column, get_marg.
  rewrite lookup_app_r by (rewrite length_fmap; lia).
  rewrite length_fmap, Nat.add_comm, Nat.add_sub.
  rewrite list_lookup_fmap. by destruct (sd !! s).
Qed.

(** ** The claims on [absorbing_state] *)

(** C8.  For a [matrix_size] outside {3, 4}, whatever the store holds,
    [absorbing_state] and [extract_pds] both stop at their guard with the
    invalid-size [ValueError] and leave the store alone.  For a
    [matrix_size] in {3, 4} neither of them raises that error, and on a frame
    whose segments own [matrix_size] x [matrix_size] blocks both return. *)
Theorem matrix_size_guard (l : loc) (matrix_size : Z) (h : gmap nat DataFrame) :
  (matrix_size ∉ [3; 4] ->
     absorbing_state l matrix_size h = (Raise invalid_size_absorbing, h) /\
     extract_pds l matrix_size h = (Raise invalid_size_extract, h)) /\
  (matrix_size ∈ [3; 4] ->
     (absorbing_state l matrix_size h).1 ≠ Raise invalid_size_absorbing /\
     (forall m, (extract_pds l matrix_size h).1 ≠ Raise (ValueError m)) /\
     (forall df, h !! l = Some df -> well_shaped (Z.to_nat matrix_size) df ->
        (exists h', absorbing_state l matrix_size h = (Ok l, h')) /\
        (exists out, extract_pds l matrix_size h = (Ok out, h)))).
Proof.
  split.
  - intros Hbad. unfold absorbing_state, extract_pds.
    by rewrite !decide_True by done.
  - intros Hsize.
    assert (matrix_size = 3 \/ matrix_size = 4) as Hcases by set_solver.
    split; [|split].
    + rewrite absorbing_state_run by done.
      destruct (h !! l) as [df|]; [|done].
      destruct (for_in _ _ h) as [[u|e] h1] eqn:Hrun; [done|].
      apply for_in_setitem_raise in Hrun as [[s ->]|[->| ->]]; done.
    + intros m. rewrite extract_pds_run by done.
      destruct (h !! l) as [df|]; [|done].
      destruct (for_each _ _ _) as [sd|e] eqn:Hrun; [done|].
      apply segment_loop_raise in Hrun as [[m' ->]|[m' ->]]; done.
    + intros df Hl (Hcols & Hrows & Hsegs). split.
      * rewrite absorbing_state_run, Hl by done.
        erewrite for_in_setitem_ok; [eauto|exact Hl| |].
        -- eapply Forall_impl; [exact Hsegs|]. intros s Hs. simpl in Hs. lia.
        -- intros _. rewrite Hcols. unfold absorbing_row, unit_vector.
           by rewrite length_fmap, length_seq.
      * rewrite extract_pds_run, Hl by done.
        destruct (segment_loop_ok df matrix_size (segments df)) with
          (sd := replicate (Z.to_nat (matrix_size - 1)) (@nil (string * list float64), @nil (string * list float64)))
          as [sd ->]; [|eauto].
        intros k s Hk Hs.
        eapply (cumulative_ok (Z.to_nat matrix_size)); [|lia..].
        by apply well_shaped_block.
Qed.

Lemma matrix_size_guard_witness :
  (absorbing_state 0%nat 5 {[ 0%nat := sample_frame ]}
     = (Raise invalid_size_absorbing, {[ 0%nat := sample_frame ]}) /\
   extract_pds 0%nat 5 {[ 0%nat := sample_frame ]}
     = (Raise invalid_size_extract, {[ 0%nat := sample_frame ]})) /\
  (exists h', absorbing_state 0%nat 3 {[ 0%nat := sample_frame ]} = (Ok 0%nat, h')) /\
  (exists out, extract_pds 0%nat 3 {[ 0%nat := sample_frame ]}
     = (Ok out, {[ 0%nat := sample_frame ]})).
Proof.
  split.
  - apply (proj1 (matrix_size_guard 0%nat 5 {[ 0%nat := sample_frame ]})).
    intros Hin. apply list_elem_of_In in Hin. simpl in Hin. intuition discriminate.
  - refine (proj2 (proj2 (proj2 (matrix_size_guard 0%nat 3 {[ 0%nat := sample_frame ]}) _))
              sample_frame _ sample_frame_well_shaped).
    + apply list_elem_of_In. simpl. auto.
    + reflexivity.
Defined.

(** C4.  Running [absorbing_state] on the object it returned changes
    nothing more: the two calls in a row end in the same result and the same
    store as the first call alone, for every store and every [matrix_size]
    (a call that raises stops the sequence where it stood). *)
Theorem absorbing_state_idempotent (l : loc) (matrix_size : Z) (h : gmap nat DataFrame) :
  (absorbing_state l matrix_size ≫= fun l' => absorbing_state l' matrix_size) h
  = absorbing_state l matrix_size h.
Proof.
  unfold mbind at 1, State_bind at 1.
  destruct (decide (matrix_size ∈ [3; 4])) as [Hsize|Hbad].
  - rewrite (absorbing_state_run l matrix_size h) by done.
    destruct (h !! l) as [df|] eqn:Hl; [|done].
    destruct (for_in _ _ h) as [[u|e] h1] eqn:Hrun; [|done].
    destruct (for_in_setitem_inv _ _ _ _ _ _ _ _ Hl Hrun) as [Hk Hv].
    rewrite (for_in_setitem_ok _ _ _ _ _ _ Hl Hk Hv) in Hrun.
    injection Hrun as Hh1. subst h1.
    set (k := Z.to_nat (matrix_size - 1)) in *.
    set (v := absorbing_row (Z.to_nat matrix_size)) in *.
    set (df1 := {| columns := columns df; rows := absorb_rows k v (segments df) (rows df) |}).
    assert (segments df1 = segments df) as Hsegs.
    { unfold segments, df1. simpl. by rewrite absorb_rows_seg. }
    rewrite (absorbing_state_run l matrix_size) by done.
    rewrite lookup_insert_eq.
    erewrite for_in_setitem_ok; [|apply lookup_insert_eq| |].
    + rewrite insert_insert_eq. do 2 f_equal. unfold df1 at 1 3. simpl.
      fold df1. rewrite Hsegs. fold k v. by rewrite absorb_rows_twice.
    + rewrite Hsegs. apply Forall_forall. intros s Hs.
      rewrite Forall_forall in Hk. specialize (Hk s Hs).
      unfold loc_rows, df1. simpl.
      rewrite <- (length_fmap cells), absorb_rows_values.
      rewrite decide_True by done. rewrite length_insert, length_fmap. exact Hk.
    + rewrite Hsegs. exact Hv.
  - unfold absorbing_state. by rewrite decide_True.
Qed.




(** ** The claims on [extract_pds] *)

(** C1.  On a frame whose segments own [matrix_size] x [matrix_size]
    blocks, with [matrix_size] 3 or 4, [extract_pds] returns, without
    touching the store, a tuple of [2 * (matrix_size - 1)] tables; for every
    segment and every originating stage [s <= matrix_size - 2], table [s]
    holds for that segment a sequence of 300 values whose value at index
    [t - 1] is the entry [(s, matrix_size - 1)] of the [t]-th power of the
    segment's matrix, for [t] from 1 to 300. *)
Theorem extract_pds_cumulative (l : loc) (matrix_size : Z)
    (h : gmap nat DataFrame) (df : DataFrame) :
  matrix_size ∈ [3; 4] ->
  h !! l = Some df ->
  well_shaped (Z.to_nat matrix_size) df ->
  exists out, extract_pds l matrix_size h = (Ok out, h) /\
    length out = (2 * Z.to_nat (matrix_size - 1))%nat /\
    forall k s, k ∈ segments df -> (s <= Z.to_nat (matrix_size - 2))%nat ->
      exists cum, pd_column out s k = Some cum /\ length cum = 300%nat /\
        forall t, (1 <= t <= 300)%nat ->
          exists x, cum !! (t - 1)%nat = Some x /\
            entry (mat_pow (loc_values k df) t) s (Z.to_nat (matrix_size - 1)) = Some x.
Proof.
  intros Hsize Hl Hshape.
  assert (matrix_size = 3 \/ matrix_size = 4) as Hcases by set_solver.
  rewrite extract_pds_run, Hl by done.
  set (sd0 := replicate (Z.to_nat (matrix_size - 1))
                (@nil (string * list float64), @nil (string * list float64))).
  destruct (segment_loop_ok df matrix_size (segments df)) with (sd := sd0) as [sd Hrun].
  { intros k s Hk Hs. eapply (cumulative_ok (Z.to_nat matrix_size)); [|lia..].
    by apply well_shaped_block. }
  rewrite Hrun. eexists. split; [reflexivity|].
  destruct (segment_loop_inv _ _ _ _ _ Hrun) as (Hlen & _ & Hin).
  assert (length sd = Z.to_nat (matrix_size - 1)) as Hlen'.
  { rewrite Hlen. apply length_replicate. }
  split.
  - rewrite length_app, !length_fmap. lia.
  - intros k s Hk Hs.
    destruct (Hin s k Hk) as (cum & Hcum & Hget & _); [lia|unfold sd0; rewrite length_replicate; lia|].
    exists cum. rewrite pd_column_cum by lia. split; [done|].
    apply cumulative_inv in Hcum as (_ & Hlen300 & Hentries). done.
Qed.

Lemma extract_pds_cumulative_witness :
  exists out, extract_pds 0%nat 3 {[ 0%nat := sample_frame_absorbed ]}
                = (Ok out, {[ 0%nat := sample_frame_absorbed ]}) /\
    length out = (2 * Z.to_nat (3 - 1))%nat /\
    forall k s, k ∈ segments sample_frame_absorbed -> (s <= Z.to_nat (3 - 2))%nat ->
      exists cum, pd_column out s k = Some cum /\ length cum = 300%nat /\
        forall t, (1 <= t <= 300)%nat ->
          exists x, cum !! (t - 1)%nat = Some x /\
            entry (mat_pow (loc_values k sample_frame_absorbed) t) s (Z.to_nat (3 - 1)) = Some x.
Proof.
  apply (extract_pds_cumulative 0%nat 3 {[ 0%nat := sample_frame_absorbed ]} sample_frame_absorbed).
  - apply list_elem_of_In. simpl. auto.
  - reflexivity.
  - unfold well_shaped. split; [reflexivity|]. split.
    + repeat constructor.
    + vm_compute. repeat constructor.
Defined.

(** ** Arrays of rationals and arrays of floats *)

Section Homomorphism.
Context {A B : Type} `{Arith A} `{Arith B} (f : A -> B).
Hypothesis f_zero : f zero = zero.
Hypothesis f_one : f one = one.
Hypothesis f_add : forall a b, f (add a b) = add (f a) (f b).
Hypothesis f_mul : forall a b, f (mul a b) = mul (f a) (f b).

Lemma vadd_hom (u v : list A) : f <$> vadd u v = vadd (f <$> u) (f <$> v).
Proof.
  unfold vadd. revert v. induction u as [|x u IH]; intros [|y v]; try done.
  cbn. by rewrite f_add, IH.
Qed.

Lemma vscale_hom (c : A) (b : list A) : f <$> vscale c b = vscale (f c) (f <$> b).
Proof.
  unfold vscale. rewrite <- !list_fmap_compose.
  apply list_fmap_ext. intros _ x _. simpl. apply f_mul.
Qed.

Lemma vec_mat_hom (n : nat) (r : list A) (M : list (list A)) :
  f <$> vec_mat n r M = vec_mat n (f <$> r) (fmap (M:=list) f <$> M).
Proof.
  revert r. induction M as [|b M IH]; intros r.
  - destruct r; simpl; unfold vzero; by rewrite fmap_replicate, f_zero.
  - destruct r as [|c r]; simpl.
    + unfold vzero. by rewrite fmap_replicate, f_zero.
    + by rewrite vadd_hom, vscale_hom, IH.
Qed.

Lemma mat_mul_hom (n : nat) (P M : list (list A)) :
  fmap (M:=list) f <$> mat_mul n P M = mat_mul n (fmap (M:=list) f <$> P) (fmap (M:=list) f <$> M).
Proof.
  unfold mat_mul. rewrite <- !list_fmap_compose.
  apply list_fmap_ext. intros i r _. simpl. apply vec_mat_hom.
Qed.

Lemma identity_hom (n : nat) : fmap (M:=list) f <$> identity n = identity n.
Proof.
  unfold identity. rewrite <- list_fmap_compose.
  apply list_fmap_ext. intros _ i _. simpl.
  unfold unit_vector. rewrite <- list_fmap_compose.
  apply list_fmap_ext. intros _ j _. simpl.
  by destruct (Nat.eqb i j).
Qed.

Lemma mat_pow_hom (M : list (list A)) (t : nat) :
  fmap (M:=list) f <$> mat_pow M t = mat_pow (fmap (M:=list) f <$> M) t.
Proof.
  induction t as [|t IH].
  - simpl. by rewrite identity_hom, length_fmap.
  - destruct t as [|t]; [done|].
    change (mat_pow ?X (S (S t))) with (mat_mul (length X) (mat_pow X (S t)) X).
    by rewrite mat_mul_hom, IH, length_fmap.
Qed.
End Homomorphism.

Lemma mat_pow_floats (M : list (list Q)) (t : nat) :
  mat_pow (floats M) t = floats (mat_pow M t).
Proof. unfold floats. symmetry. by apply mat_pow_hom. Qed.

Lemma entry_floats (M : list (list Q)) (i j : nat) :
  entry (floats M) i j = Fin <$> entry M i j.
Proof.
  unfold entry, floats. rewrite list_lookup_fmap.
  destruct (M !! i) as [r|]; simpl; [|done]. by rewrite list_lookup_fmap.
Qed.

(** ** Powers of a stochastic matrix *)

Section Stochastic.
Local Open Scope Q_scope.

Lemma add_Q (a b : Q) : add a b == a + b.
Proof. apply Qred_correct. Qed.

Lemma mul_Q (a b : Q) : mul a b == a * b.
Proof. apply Qred_correct. Qed.

Lemma Qsum_cons (x : Q) (r : list Q) : Qsum (x :: r) = x + Qsum r.
Proof. reflexivity. Qed.

Lemma vscale_cons (c x : Q) (b : list Q) : vscale c (x :: b) = mul c x :: vscale c b.
Proof. reflexivity. Qed.

Lemma vadd_cons (x y : Q) (u v : list Q) : vadd (x :: u) (y :: v) = add x y :: vadd u v.
Proof. reflexivity. Qed.

Lemma Qsum_vzero (n : nat) : Qsum (vzero n) == 0.
Proof.
  induction n as [|n IH]; [reflexivity|].
  change (vzero (S n)) with (0 :: vzero (A:=Q) n). rewrite Qsum_cons, IH. ring.
Qed.

Lemma Qsum_vscale (c : Q) (b : list Q) : Qsum (vscale c b) == c * Qsum b.
Proof.
  induction b as [|x b IH].
  - change (0 == c * 0). ring.
  - rewrite vscale_cons, !Qsum_cons, IH, mul_Q. ring.
Qed.

Lemma Qsum_vadd (u v : list Q) :
  length u = length v -> Qsum (vadd u v) == Qsum u + Qsum v.
Proof.
  revert v. induction u as [|x u IH]; intros [|y v] Hlen; try discriminate.
  - change (0 == 0 + 0). ring.
  - injection Hlen as Hlen. rewrite vadd_cons, !Qsum_cons, (IH v Hlen), add_Q. ring.
Qed.

Lemma nonneg_vzero (n : nat) : nonneg (vzero n).
Proof. apply Forall_replicate. simpl. apply Qle_refl. Qed.

Lemma nonneg_vscale (c : Q) (b : list Q) : 0 <= c -> nonneg b -> nonneg (vscale c b).
Proof.
  intros Hc Hb. unfold nonneg, vscale. apply Forall_fmap.
  eapply Forall_impl; [exact Hb|]. intros x Hx.
  change (0 <= mul c x). rewrite mul_Q. by apply Qmult_le_0_compat.
Qed.

Lemma nonneg_vadd (u v : list Q) : nonneg u -> nonneg v -> nonneg (vadd u v).
Proof.
  intros Hu. revert v. induction Hu as [|x u Hx Hu IH]; intros v Hv; [constructor|].
  destruct Hv as [|y v Hy Hv]; [constructor|]. rewrite vadd_cons. constructor.
  - rewrite add_Q. lra.
  - by apply IH.
Qed.

Lemma nonneg_vec_mat (n : nat) (r : list Q) (M : list (list Q)) :
  nonneg r -> Forall nonneg M -> nonneg (vec_mat n r M).
Proof.
  intros Hr HM. revert r Hr. induction HM as [|b M Hb HM IH]; intros r Hr.
  - destruct r; apply nonneg_vzero.
  - destruct Hr as [|c r Hc Hr]; [apply nonneg_vzero|]. cbn [vec_mat].
    apply nonneg_vadd; [by apply nonneg_vscale|by apply IH].
Qed.

Lemma Qsum_vec_mat (n : nat) (r : list Q) (M : list (list Q)) :
  Forall (fun b => length b = n) M ->
  Forall (fun b => Qsum b == 1) M ->
  (length r <= length M)%nat ->
  Qsum (vec_mat n r M) == Qsum r.
Proof.
  intros Hlen. revert r. induction Hlen as [|b M Hb Hlen IH]; intros r Hsum Hr.
  - destruct r; cbn [length] in Hr; [apply Qsum_vzero|lia].
  - destruct r as [|c r]; [apply Qsum_vzero|]. cbn [vec_mat length] in *.
    apply Forall_cons in Hsum as [Hb1 Hsum].
    rewrite Qsum_vadd.
    + rewrite Qsum_vscale, Hb1, Qsum_cons, IH by (done || lia). ring.
    + unfold vscale. rewrite length_fmap, Hb. symmetry. by apply vec_mat_length.
Qed.

(** A sum of non-negative terms is at least each of its terms. *)
Lemma vec_mat_entry_ge (n : nat) (M : list (list Q)) :
  Forall nonneg M ->
  forall (r : list Q) (i j : nat) (c x y : Q) (b : list Q),
  nonneg r ->
  r !! i = Some c -> M !! i = Some b -> b !! j = Some x ->
  vec_mat n r M !! j = Some y ->
  c * x <= y.
Proof.
  induction 1 as [|b0 M Hb0 HM IH]; intros r i j c x y b Hr Hc Hb Hx Hy.
  - by rewrite lookup_nil in Hb.
  - destruct Hr as [|c0 r Hc0 Hr]; [by rewrite lookup_nil in Hc|].
    cbn [vec_mat] in Hy. unfold vadd in Hy. apply lookup_zip_with_Some in Hy
      as (u & w & -> & Hu & Hw).
    unfold vscale in Hu. rewrite list_lookup_fmap in Hu.
    destruct (b0 !! j) as [x0|] eqn:Hx0; [|done]. injection Hu as <-.
    assert (0 <= x0) as Hx0pos.
    { unfold nonneg in Hb0. rewrite Forall_forall in Hb0.
      apply Hb0. by eapply list_elem_of_lookup_2. }
    assert (0 <= w) as Hwpos.
    { pose proof (nonneg_vec_mat n r M Hr HM) as Hnn.
      unfold nonneg in Hnn. rewrite Forall_forall in Hnn.
      apply Hnn. by eapply list_elem_of_lookup_2. }
    rewrite add_Q, Qred_correct.
    destruct i as [|i]; simpl in Hc, Hb.
    + injection Hc as <-. injection Hb as <-. rewrite Hx in Hx0. injection Hx0 as <-. lra.
    + pose proof (IH r i j c x w b Hr Hc Hb Hx Hw) as Hle.
      pose proof (Qmult_le_0_compat _ _ Hc0 Hx0pos). lra.
Qed.

Lemma stochastic_entry (r : list Q) (j : nat) (x : Q) :
  stochastic_row r -> r !! j = Some x -> 0 <= x <= 1.
Proof.
  intros [Hnn Hsum] Hx. rewrite <- Hsum. clear Hsum. revert j Hx.
  induction Hnn as [|y r Hy Hnn IH]; intros j Hx; [by rewrite lookup_nil in Hx|].
  assert (0 <= Qsum r) as Hs.
  { clear IH Hx. induction Hnn as [|z r Hz Hnn IH]; [by compute|].
    rewrite Qsum_cons. lra. }
  rewrite Qsum_cons. destruct j as [|j]; simpl in Hx.
  - injection Hx as <-. lra.
  - destruct (IH j Hx). lra.
Qed.

Lemma stochastic_vec_mat (n : nat) (r : list Q) (M : list (list Q)) :
  stochastic n M -> length r = n -> stochastic_row r ->
  stochastic_row (vec_mat n r M).
Proof.
  intros [[Hm Hn] Hrows] Hlen [Hnn Hsum]. split.
  - apply nonneg_vec_mat; [done|].
    eapply Forall_impl; [exact Hrows|]. by intros b [Hb _].
  - rewrite Qsum_vec_mat; [done|done| |lia].
    eapply Forall_impl; [exact Hrows|]. by intros b [_ Hb].
Qed.

Lemma mat_pow_stochastic (n : nat) (M : list (list Q)) (t : nat) :
  stochastic n M -> stochastic n (mat_pow M (S t)).
Proof.
  intros HM. induction t as [|t IH]; [exact HM|].
  change (mat_pow M (S (S t))) with (mat_mul (length M) (mat_pow M (S t)) M).
  destruct IH as [[IHm IHn] IHrows]. pose proof HM as [[Hm Hn] Hrows].
  rewrite Hm. split.
  - by apply mat_mul_shape.
  - unfold mat_mul. apply Forall_fmap.
    rewrite Forall_forall in IHn, IHrows. apply Forall_forall. intros r Hr. simpl.
    apply stochastic_vec_mat; [done|by apply IHn|by apply IHrows].
Qed.

(** The cumulative probability of absorption cannot decrease with one
    more step. *)
Lemma absorbed_mass_grows (n : nat) (M : list (list Q)) (t s : nat) (a b : Q) :
  stochastic n M ->
  M !! (n - 1)%nat = Some (unit_vector n (n - 1)) ->
  entry (mat_pow M (S t)) s (n - 1) = Some a ->
  entry (mat_pow M (S (S t))) s (n - 1) = Some b ->
  a <= b.
Proof.
  intros HM Hlast Ha Hb.
  pose proof (mat_pow_stochastic n M t HM) as [[Pm Pn] Prows].
  pose proof HM as [[Hm Hn] Hrows].
  change (mat_pow M (S (S t))) with (mat_mul (length M) (mat_pow M (S t)) M) in Hb.
  unfold entry, mat_mul in *. rewrite list_lookup_fmap in Hb.
  destruct (mat_pow M (S t) !! s) as [r|] eqn:Hr; [|done]. simpl in *.
  assert (n ≠ 0)%nat as Hn0.
  { intros ->. rewrite Forall_forall in Pn.
    assert (length r = 0%nat) as Hr0 by (apply Pn; by eapply list_elem_of_lookup_2).
    apply lookup_lt_Some in Ha. lia. }
  assert (unit_vector (A:=Q) n (n - 1) !! (n - 1)%nat = Some 1) as Hone.
  { unfold unit_vector. rewrite list_lookup_fmap, lookup_seq_lt by lia. simpl.
    by rewrite Nat.eqb_refl. }
  rewrite Hm in Hb.
  assert (a * 1 <= b) as Hle.
  { eapply (vec_mat_entry_ge n M); [| |exact Ha|exact Hlast|exact Hone|exact Hb].
    - eapply Forall_impl; [exact Hrows|]. by intros b0 [Hb0 _].
    - rewrite Forall_forall in Prows.
      apply (Prows r). by eapply list_elem_of_lookup_2. }
  lra.
Qed.
End Stochastic.

Lemma floats_shape (m n : nat) (M : list (list Q)) :
  has_shape m n M -> has_shape m n (floats M).
Proof.
  intros [Hm Hn]. unfold floats. split; [by rewrite length_fmap|].
  apply Forall_fmap. eapply Forall_impl; [exact Hn|].
  intros r Hr. simpl. by rewrite length_fmap.
Qed.

(** The rational sequence behind a cumulative sequence of a stochastic
    absorbing matrix: it lies in [0, 1] and never decreases. *)
Lemma cumulative_stochastic (n : nat) (M : list (list Q)) (s : nat) (c : list float64) :
  stochastic n M ->
  M !! (n - 1)%nat = Some (unit_vector n (n - 1)) ->
  cumulative (floats M) s (n - 1) = Ok c ->
  exists cum : list Q, c = Fin <$> cum /\
    (forall t x, cum !! t = Some x -> (0 <= x <= 1)%Q) /\
    (forall t a b, cum !! t = Some a -> cum !! S t = Some b -> (a <= b)%Q).
Proof.
  intros HM Hlast Hc.
  apply cumulative_inv in Hc as (_ & Hlen & Hentries).
  set (g := fun t => default 0%Q (entry (mat_pow M t) s (n - 1))).
  assert (forall t, (t < 300)%nat ->
            c !! t = Some (Fin (g (S t))) /\
            entry (mat_pow M (S t)) s (n - 1) = Some (g (S t))) as Hg.
  { intros t Ht. destruct (Hentries (S t)) as (x & Hx & Hex); [lia|].
    rewrite mat_pow_floats, entry_floats in Hex.
    simpl in Hx. rewrite Nat.sub_0_r in Hx. unfold g.
    destruct (entry (mat_pow M (S t)) s (n - 1)) as [q|]; [|done].
    injection Hex as <-. done. }
  exists (g <$> seq 1 300). split; [|split].
  - apply list_eq. intros t. rewrite list_lookup_fmap.
    destruct (decide (t < 300)%nat) as [Ht|Ht].
    + rewrite list_lookup_fmap, lookup_seq_lt by done. simpl.
      by destruct (Hg t Ht) as [-> _].
    + rewrite lookup_ge_None_2 by lia.
      rewrite lookup_ge_None_2; [done|]. rewrite length_fmap, length_seq. lia.
  - intros t x Hx. rewrite list_lookup_fmap in Hx.
    destruct (seq 1 300 !! t) as [t'|] eqn:Ht'; [|done].
    apply lookup_seq in Ht' as [-> Ht]. injection Hx as <-.
    destruct (Hg t Ht) as [_ Hentry]. unfold entry in Hentry.
    destruct (mat_pow M (S t) !! s) as [r|] eqn:Hr; [|done]. simpl in Hentry.
    pose proof (mat_pow_stochastic n M t HM) as [_ Hrows].
    rewrite Forall_forall in Hrows.
    eapply stochastic_entry; [|exact Hentry].
    apply Hrows. by eapply list_elem_of_lookup_2.
  - intros t a b Ha Hb. rewrite list_lookup_fmap in Ha, Hb.
    destruct (seq 1 300 !! t) as [t1|] eqn:Ht1; [|done].
    destruct (seq 1 300 !! S t) as [t2|] eqn:Ht2; [|done].
    apply lookup_seq in Ht1 as [-> Ht1]. apply lookup_seq in Ht2 as [-> Ht2].
    injection Ha as <-. injection Hb as <-.
    destruct (Hg t Ht1) as [_ Hea]. destruct (Hg (S t) Ht2) as [_ Heb].
    by eapply absorbed_mass_grows.
Qed.


Lemma sample_segments : segments sample_frame_absorbed = ["mortgage"; "retail"].
Proof. by vm_compute. Qed.

Lemma sample_absorbing_stochastic : absorbing_stochastic 3 sample_frame_absorbed.
Proof.
  intros s Hs. rewrite sample_segments in Hs.
  assert (s = "mortgage" \/ s = "retail") as [-> | ->] by set_solver.
  - exists [[0; 1; 0]; [0; 0; 1]; [0; 0; 1]]%Q.
    split; [by vm_compute|]. split; [|reflexivity].
    split; [split; [reflexivity|repeat constructor]|].
    repeat constructor; unfold Qsum; simpl; lra.
  - exists [[1; 0; 0]; [1 # 2; 0; 1 # 2]; [0; 0; 1]]%Q.
    split; [by vm_compute|]. split; [|reflexivity].
    split; [split; [reflexivity|repeat constructor]|].
    repeat constructor; unfold Qsum; simpl; lra.
Qed.


Lemma marginal_differences (c : list float64) : differences (marginal c) c.
Proof.
  split; [apply marginal_length|]. split; [apply marginal_first|].
  intros t a b Hb Ha. change (fsub a b) with (sub a b).
  by apply marginal_next.
Qed.

Lemma extract_pds_returns (l : loc) (matrix_size : Z) (h : gmap nat DataFrame) (df : DataFrame) :
  matrix_size ∈ [3; 4] -> h !! l = Some df -> well_shaped (Z.to_nat matrix_size) df ->
  exists out, extract_pds l matrix_size h = (Ok out, h).
Proof.
  intros Hsize Hl Hshape.
  assert (matrix_size = 3 \/ matrix_size = 4) as Hcases by set_solver.
  rewrite extract_pds_run, Hl by done.
  destruct (segment_loop_ok df matrix_size (segments df)) with
    (sd := replicate (Z.to_nat (matrix_size - 1))
             (@nil (string * list float64), @nil (string * list float64)))
    as [sd ->]; [|eauto].
  intros k s Hk Hs. eapply (cumulative_ok (Z.to_nat matrix_size)); [|lia..].
  by apply well_shaped_block.
Qed.

(** ** The cure and recovery matrix *)

Lemma get_column_None (name : string) (cols : list (string * list string)) :
  name ∉ cols.*1 -> get_column name cols = None.
Proof.
  induction cols as [|[k v] cols IH]; intros Hnot; simpl; [done|].
  rewrite decide_False by set_solver. apply IH. set_solver.
Qed.

Lemma groupby_sum_loc_missing (df : CureTable) (by_col label : string) :
  by_col ∉ table_columns df -> groupby_sum_loc df by_col label = Raise (KeyError by_col).
Proof.
  intros Hnot. unfold groupby_sum_loc. rewrite get_column_None; [done|].
  unfold table_columns in Hnot. set_solver.
Qed.

Lemma groupby_sum_loc_fin (df : CureTable) (by_col label : string) (x : float64) :
  groupby_sum_loc df by_col label = Ok x -> exists q, x = Fin q.
Proof.
  unfold groupby_sum_loc. destruct (get_column _ _); [|done].
  destruct (filter _ _); [done|]. intros [= <-]. eauto.
Qed.

Lemma cure_matrix_run (df : CureTable) (a b c : Q) :
  groupby_sum_loc df "recoveries" "cured" = Ok (Fin a) ->
  groupby_sum_loc df "recoveries" "recovered" = Ok (Fin b) ->
  groupby_sum_loc df "recoveries" "stage_3" = Ok (Fin c) ->
  cure_matrix df =
    Ok [ [Fin 1; Fin 0; Fin 0]; [Fin 0; Fin 1; Fin 0];
         (fun x => fdiv x (vsum [Fin a; Fin b; Fin c])) <$> [Fin a; Fin b; Fin c] ].
Proof. intros Ha Hb Hc. unfold cure_matrix. by rewrite Ha, Hb, Hc. Qed.

Lemma cure_matrix_shape (df : CureTable) (M : list (list float64)) :
  cure_matrix df = Ok M -> has_shape 3 3 M.
Proof.
  unfold cure_matrix.
  destruct (groupby_sum_loc df "recoveries" "cured") as [x|]; [|done].
  destruct (groupby_sum_loc df "recoveries" "recovered") as [y|]; [|done].
  destruct (groupby_sum_loc df "recoveries" "stage_3") as [z|]; [|done].
  intros [= <-]. split; [reflexivity|repeat constructor].
Qed.

Section CureRow.
Local Open Scope Q_scope.

End CureRow.



(** ** The claims on [cure_rate] *)

Lemma cure_rate_inv (df : CureTable) (out : Dict) :
  cure_rate df = Ok out ->
  "recoveries" ∈ table_columns df /\
  exists M cc cr, cure_matrix df = Ok M /\
    cumulative M 2 0 = Ok cc /\ cumulative M 2 1 = Ok cr /\
    out = [("cure_rates", marginal cc); ("recovery_rates", marginal cr)].
Proof.
  unfold cure_rate. case_decide as Hcol.
  - destruct (cure_matrix df) as [M|]; [|done]. simpl.
    destruct (cumulative M 2 0) as [cc|] eqn:Hcc; [|done]. simpl.
    destruct (cumulative M 2 1) as [cr|] eqn:Hcr; [|done]. simpl.
    intros [= <-]. split; [done|]. by exists M, cc, cr.
  - destruct (groupby_sum_loc df "cures" "cured"); [|done]. simpl.
    by destruct (groupby_sum_loc df "recoveries" "stage_3").
Qed.

Lemma cure_rate_returns (df : CureTable) (M : list (list float64)) :
  "recoveries" ∈ table_columns df -> cure_matrix df = Ok M ->
  exists out, cure_rate df = Ok out.
Proof.
  intros Hcol HM. unfold cure_rate. rewrite decide_True by done. rewrite HM. simpl.
  pose proof (cure_matrix_shape df M HM) as Hshape.
  destruct (cumulative_ok 3 M 2 0 Hshape) as [cc ->]; [lia..|].
  destruct (cumulative_ok 3 M 2 1 Hshape) as [cr ->]; [lia..|].
  simpl. eauto.
Qed.

(** C3.  Whenever [extract_pds] returns, for every segment and every
    originating stage [s <= matrix_size - 2] the marginal sequence (table
    [matrix_size - 1 + s]) and the cumulative sequence (table [s]) both have
    300 values, [marginal[0] = cumulative[0]] and
    [marginal[t] = cumulative[t] - cumulative[t-1]] from the second value on.
    Whenever [cure_rate] returns, its [cure_rates] and [recovery_rates]
    columns stand in the same relation to the cumulative rates it computed
    from the cure matrix. *)
Theorem marginal_is_differenced_cumulative :
  (forall (l : loc) (matrix_size : Z) (h h' : gmap nat DataFrame) (df : DataFrame)
          (out : list Dict),
     matrix_size ∈ [3; 4] -> h !! l = Some df ->
     extract_pds l matrix_size h = (Ok out, h') ->
     forall k s, k ∈ segments df -> (s <= Z.to_nat (matrix_size - 2))%nat ->
       exists cum marg,
         pd_column out s k = Some cum /\
         pd_column out (Z.to_nat (matrix_size - 1) + s) k = Some marg /\
         length cum = 300%nat /\ differences marg cum) /\
  (forall (df : CureTable) (out : Dict),
     cure_rate df = Ok out ->
     exists M cc cr mc mr,
       cure_matrix df = Ok M /\
       cumulative M 2 0 = Ok cc /\ cumulative M 2 1 = Ok cr /\
       out = [("cure_rates", mc); ("recovery_rates", mr)] /\
       length cc = 300%nat /\ differences mc cc /\
       length cr = 300%nat /\ differences mr cr).
Proof.
  split.
  - intros l matrix_size h h' df out Hsize Hl Hrun k s Hk Hs.
    assert (matrix_size = 3 \/ matrix_size = 4) as Hcases by set_solver.
    rewrite extract_pds_run, Hl in Hrun by done.
    destruct (for_each _ _ _) as [sd|e] eqn:Hloop; [|done].
    injection Hrun as <- <-.
    destruct (segment_loop_inv _ _ _ _ _ Hloop) as (Hlen & _ & Hin).
    rewrite length_replicate in Hlen.
    destruct (Hin s k Hk) as (cum & Hcum & Hgc & Hgm); [lia|rewrite length_replicate; lia|].
    exists cum, (marginal cum).
    rewrite pd_column_cum by lia. rewrite <- Hlen, pd_column_marg.
    split; [done|]. split; [done|].
    apply cumulative_inv in Hcum as (_ & Hlen300 & _).
    split; [done|apply marginal_differences].
  - intros df out Hrun.
    apply cure_rate_inv in Hrun as (_ & M & cc & cr & HM & Hcc & Hcr & ->).
    exists M, cc, cr, (marginal cc), (marginal cr).
    pose proof (cumulative_inv _ _ _ _ Hcc) as (_ & Hlc & _).
    pose proof (cumulative_inv _ _ _ _ Hcr) as (_ & Hlr & _).
    repeat split; try done; apply marginal_differences.
Qed.

Lemma sample_recoveries_matrix :
  cure_matrix sample_recoveries
  = Ok [[Fin 1; Fin 0; Fin 0]; [Fin 0; Fin 1; Fin 0]; [Fin (3 # 10); Fin (1 # 5); Fin (1 # 2)]].
Proof. by vm_compute. Qed.

Lemma marginal_is_differenced_cumulative_witness :
  (exists out, extract_pds 0%nat 3 {[ 0%nat := sample_frame_absorbed ]}
                 = (Ok out, {[ 0%nat := sample_frame_absorbed ]}) /\
     forall k s, k ∈ segments sample_frame_absorbed -> (s <= Z.to_nat (3 - 2))%nat ->
       exists cum marg,
         pd_column out s k = Some cum /\
         pd_column out (Z.to_nat (3 - 1) + s) k = Some marg /\
         length cum = 300%nat /\ differences marg cum) /\
  (exists out, cure_rate sample_recoveries = Ok out /\
     exists M cc cr mc mr,
       cure_matrix sample_recoveries = Ok M /\
       cumulative M 2 0 = Ok cc /\ cumulative M 2 1 = Ok cr /\
       out = [("cure_rates", mc); ("recovery_rates", mr)] /\
       length cc = 300%nat /\ differences mc cc /\
       length cr = 300%nat /\ differences mr cr).
Proof.
  split.
  - destruct (extract_pds_returns 0%nat 3 {[ 0%nat := sample_frame_absorbed ]}
                sample_frame_absorbed) as [out Hout].
    + apply list_elem_of_In. simpl. auto.
    + reflexivity.
    + unfold well_shaped. split; [reflexivity|]. split.
      * repeat constructor.
      * vm_compute. repeat constructor.
    + exists out. split; [exact Hout|].
      apply (proj1 marginal_is_differenced_cumulative 0%nat 3
               {[ 0%nat := sample_frame_absorbed ]} {[ 0%nat := sample_frame_absorbed ]}
               sample_frame_absorbed out).
      * apply list_elem_of_In. simpl. auto.
      * reflexivity.
      * exact Hout.
  - destruct (cure_rate_returns sample_recoveries _
                ltac:(apply list_elem_of_In; simpl; auto)
                sample_recoveries_matrix) as [out Hout].
    exists out. split; [exact Hout|].
    exact (proj2 marginal_is_differenced_cumulative sample_recoveries out Hout).
Defined.

(** C9 fails on the code: a table with a [cures] column and no
    [recoveries] column makes [cure_rate] raise, at the [groupby] on the
    absent [recoveries] column of the branch meant for that table. *)
Theorem cure_rate_cures_only_raises :
  cure_rate sample_cures_only = Raise (KeyError "recoveries").
Proof. by vm_compute. Qed.

(** ** Sorted distinct labels *)

Lemma label_lt_trans (x y z : string) : label_lt x y -> label_lt y z -> label_lt x z.
Proof.
  unfold label_lt. intros Hxy Hyz.
  apply OrderedTypeEx.String_as_OT.cmp_lt in Hxy, Hyz.
  apply OrderedTypeEx.String_as_OT.cmp_lt.
  by eapply OrderedTypeEx.String_as_OT.lt_trans.
Qed.

Lemma label_lt_irrefl (x : string) : ~ label_lt x x.
Proof.
  unfold label_lt. intros Hlt.
  apply OrderedTypeEx.String_as_OT.cmp_lt in Hlt.
  by apply OrderedTypeEx.String_as_OT.lt_not_eq in Hlt.
Qed.

Lemma insert_sorted_elem (x y : string) (l : list string) :
  y ∈ insert_sorted x l <-> y = x \/ y ∈ l.
Proof.
  induction l as [|z l IH]; simpl; [set_solver|].
  destruct (String.compare x z) eqn:Hcmp.
  - apply String.compare_eq_iff in Hcmp as ->. set_solver.
  - set_solver.
  - rewrite elem_of_cons, IH. set_solver.
Qed.

Lemma insert_sorted_sorted (x : string) (l : list string) :
  StronglySorted label_lt l -> StronglySorted label_lt (insert_sorted x l).
Proof.
  induction 1 as [|z l Hsorted IH Hall]; simpl; [repeat constructor|].
  destruct (String.compare x z) eqn:Hcmp.
  - by constructor.
  - constructor; [by constructor|]. constructor; [done|].
    eapply Forall_impl; [exact Hall|]. intros w Hw. by eapply label_lt_trans.
  - constructor; [done|]. apply Forall_forall. intros w Hw.
    apply insert_sorted_elem in Hw as [->|Hw].
    + unfold label_lt. rewrite String.compare_antisym, Hcmp. done.
    + rewrite Forall_forall in Hall. by apply Hall.
Qed.

Lemma sorted_unique_elem (x : string) (l : list string) : x ∈ sorted_unique l <-> x ∈ l.
Proof.
  unfold sorted_unique. induction l as [|y l IH]; simpl; [done|].
  rewrite insert_sorted_elem, IH. set_solver.
Qed.

Lemma sorted_unique_sorted (l : list string) : StronglySorted label_lt (sorted_unique l).
Proof.
  unfold sorted_unique. induction l as [|y l IH]; simpl; [constructor|].
  by apply insert_sorted_sorted.
Qed.

Lemma sorted_NoDup (l : list string) : StronglySorted label_lt l -> NoDup l.
Proof.
  induction 1 as [|z l Hsorted IH Hall]; constructor; [|done].
  intros Hin. rewrite Forall_forall in Hall. by apply (label_lt_irrefl z), Hall.
Qed.

Lemma sorted_unique_NoDup (l : list string) : NoDup (sorted_unique l).
Proof. apply sorted_NoDup, sorted_unique_sorted. Qed.

(** ** Sums of balances *)

Section Sums.
Local Open Scope Q_scope.

Lemma vsum_Qsum (l : list Q) : vsum l == Qsum l.
Proof.
  induction l as [|x l IH]; [reflexivity|].
  change (vsum (x :: l)) with (add x (vsum l)).
  rewrite add_Q, IH. reflexivity.
Qed.

Lemma Qsum_nonneg (l : list Q) : nonneg l -> 0 <= Qsum l.
Proof.
  induction 1 as [|x l Hx Hl IH]; [by compute|]. rewrite Qsum_cons. lra.
Qed.

Lemma Qsum_ge_elem (l : list Q) (x : Q) : nonneg l -> x ∈ l -> x <= Qsum l.
Proof.
  induction 1 as [|y l Hy Hl IH]; intros Hin; [by apply elem_of_nil in Hin|].
  rewrite Qsum_cons. pose proof (Qsum_nonneg l Hl).
  apply elem_of_cons in Hin as [->|Hin]; [lra|]. specialize (IH Hin). lra.
Qed.


End Sums.

(** ** The cross-tabulation *)

Lemma crosstab_rows_elem (df : list Transition) (row : Row) :
  row ∈ rows (crosstab df) <->
  exists s c, s ∈ loan_type <$> df /\ c ∈ current_stage <$> df /\
    row = {| seg := s; stage := c;
             cells := normalize_index (cell_sum df s c <$> sorted_unique (next_stage <$> df)) |}.
Proof.
  unfold crosstab. cbn [rows]. rewrite list_elem_of_bind. split.
  - intros (s & Hrow & Hs). apply list_elem_of_fmap in Hrow as (c & -> & Hc).
    rewrite sorted_unique_elem in Hs, Hc. by exists s, c.
  - intros (s & c & Hs & Hc & ->). exists s. split.
    + apply list_elem_of_fmap. exists c. split; [done|]. by apply sorted_unique_elem.
    + by apply sorted_unique_elem.
Qed.

Lemma crosstab_index_NoDup (df : list Transition) :
  NoDup ((fun r => (seg r, stage r)) <$> rows (crosstab df)).
Proof.
  unfold crosstab. cbn [rows].
  set (segs := sorted_unique (loan_type <$> df)).
  set (curs := sorted_unique (current_stage <$> df)).
  assert (NoDup segs) as Hsegs by apply sorted_unique_NoDup.
  assert (NoDup curs) as Hcurs by apply sorted_unique_NoDup.
  clearbody segs curs.
  induction Hsegs as [|s segs Hs Hsegs IH]; csimpl; [constructor|].
  rewrite fmap_app. apply NoDup_app. split; [|split; [|exact IH]].
  - rewrite <- list_fmap_compose. apply NoDup_fmap_2_strong; [|done].
    intros c1 c2 _ _ Heq. simpl in Heq. congruence.
  - intros [s' c'] Hin1 Hin2.
    apply list_elem_of_fmap in Hin1 as (r1 & Hr1 & Hin1).
    apply list_elem_of_fmap in Hin1 as (c1 & -> & _).
    apply list_elem_of_fmap in Hin2 as (r2 & Hr2 & Hin2).
    apply list_elem_of_bind in Hin2 as (s2 & Hin2 & Hs2).
    apply list_elem_of_fmap in Hin2 as (c2 & -> & _).
    simpl in Hr1, Hr2. congruence.
Qed.

Lemma group_elem (df : list Transition) (s c n : string) (r : Transition) :
  r ∈ group (filter (fun r => next_stage r ≠ "exit") df) s c n <->
  r ∈ observations df s c /\ next_stage r = n.
Proof.
  unfold group, observations. rewrite !list_elem_of_filter. naive_solver.
Qed.

Section Normalisation.
Local Open Scope Q_scope.

Lemma nansum_raw (v : list float64) :
  Forall raw_cell v -> exists S, nansum v = Fin S /\ S == Qsum (cell_value <$> v).
Proof.
  induction 1 as [|x v Hx Hv IH].
  - exists 0. split; reflexivity.
  - destruct IH as (S & HS & HSq). destruct Hx as [->|[q ->]].
    + exists S. split; [exact HS|]. cbn [fmap list_fmap cell_value].
      rewrite Qsum_cons, HSq. ring.
    + exists (Qred (q + S)). split.
      * unfold nansum in *. cbn [List.filter is_nan negb].
        change (vsum (Fin q :: ?l)) with (fadd (Fin q) (vsum l)). by rewrite HS.
      * cbn [fmap list_fmap cell_value]. rewrite Qsum_cons, Qred_correct, HSq. reflexivity.
Qed.

Lemma normalize_index_shares (v : list float64) (S : Q) :
  Forall raw_cell v -> nansum v = Fin S -> ~ S == 0 ->
  normalize_index v = Fin <$> shares S v.
Proof.
  intros Hv HS Hnz. unfold normalize_index, shares. rewrite HS.
  rewrite <- list_fmap_compose. apply Forall_fmap_ext_1.
  eapply Forall_impl; [exact Hv|]. intros x [->|[q ->]]; simpl; [done|].
  unfold Qis_zero. destruct (Qeq_bool S 0) eqn:E; [|done].
  by apply Qeq_bool_eq in E.
Qed.

Lemma shares_sum (v : list float64) (S : Q) :
  ~ S == 0 -> Qsum (shares S v) == Qsum (cell_value <$> v) / S.
Proof.
  intros Hnz. induction v as [|x v IH].
  - change (0 == 0 / S). field. exact Hnz.
  - unfold shares in *. cbn [fmap list_fmap]. rewrite !Qsum_cons, IH.
    destruct x as [q| |]; cbn [cell_value]; rewrite ?Qred_correct; field; exact Hnz.
Qed.

Lemma shares_nonneg (v : list float64) (S : Q) :
  0 < S -> Forall (fun x => 0 <= cell_value x) v -> nonneg (shares S v).
Proof.
  intros HS Hv. unfold shares, nonneg. apply Forall_fmap.
  eapply Forall_impl; [exact Hv|]. intros x Hx. simpl.
  destruct x as [q| |]; cbn [cell_value] in Hx; try lra.
  rewrite Qred_correct. unfold Qdiv. apply Qmult_le_0_compat; [done|].
  apply Qlt_le_weak, Qinv_lt_0_compat, HS.
Qed.



Lemma Qsum_pos_elem (l : list Q) : nonneg l -> 0 < Qsum l -> exists x, x ∈ l /\ 0 < x.
Proof.
  induction 1 as [|x l Hx Hl IH]; intros Hpos.
  - by compute in Hpos.
  - rewrite Qsum_cons in Hpos. destruct (Qlt_le_dec 0 x) as [Hx0|Hx0].
    + exists x. split; [left|done].
    + destruct IH as (y & Hy & Hy0); [lra|]. exists y. split; [by right|done].
Qed.
End Normalisation.

(** ** The claims on [base_matrices] *)


Lemma cell_sum_raw (df : list Transition) (s c n : string) :
  raw_cell (cell_sum df s c n) /\
  (cell_value (cell_sum df s c n) == Qsum (out_balance <$> group df s c n))%Q.
Proof.
  unfold cell_sum, raw_cell. destruct (group df s c n) as [|r grp]; [split; [by left|done]|].
  split; [right; eauto|]. cbn [cell_value]. apply vsum_Qsum.
Qed.




(** C7, as stated, fails: with records that only ever move from stage_1 to
    stage_1 or stage_3, the frame has one row and two columns; no stage_2
    or stage_3 row and no stage_2 column is padded in, so the block of the
    segment is neither 3 x 3 nor 4 x 4. *)
Lemma base_matrices_unobserved_stage_absent :
  base_matrices [record "retail" "stage_1" "stage_1" 90; record "retail" "stage_1" "stage_3" 10]
    = {| columns := ["stage_1"; "stage_3"];
         rows := [ {| seg := "retail"; stage := "stage_1";
                      cells := [Fin (9 # 10); Fin (1 # 10)] |} ] |} /\
  ~ well_shaped 3
      (base_matrices [record "retail" "stage_1" "stage_1" 90;
                      record "retail" "stage_1" "stage_3" 10]) /\
  ~ well_shaped 4
      (base_matrices [record "retail" "stage_1" "stage_1" 90;
                      record "retail" "stage_1" "stage_3" 10]).
Proof.
  split; [by vm_compute|].
  split; intros [Hcols _]; vm_compute in Hcols; discriminate.
Qed.

(** C7, amended.  The frame [base_matrices] returns has one column for
    every next stage observed among the non-exit records, and no other; for
    every observed segment, one row for every current stage observed among
    the non-exit records of any segment, and no other row; every row is as
    wide as the columns; and a cell whose (segment, current stage, next
    stage) has no record holds zero.  Stages that the records never show are
    not added. *)
Theorem base_matrices_shape (recs : list Transition) :
  let kept := filter (fun r => next_stage r ≠ "exit") recs in
  let df := base_matrices recs in
  (forall n, n ∈ columns df <-> n ∈ next_stage <$> kept) /\
  NoDup (columns df) /\
  (forall s c, (exists row, row ∈ rows df /\ seg row = s /\ stage row = c) <->
               s ∈ loan_type <$> kept /\ c ∈ current_stage <$> kept) /\
  NoDup ((fun r => (seg r, stage r)) <$> rows df) /\
  (forall row, row ∈ rows df ->
     length (cells row) = length (columns df) /\
     forall j n, columns df !! j = Some n ->
       group kept (seg row) (stage row) n = [] -> cells row !! j = Some (Fin 0)).
Proof.
  intros kept df. unfold df, base_matrices. fold kept.
  split; [|split; [|split; [|split]]].
  - intros n. unfold crosstab. cbn [columns]. apply sorted_unique_elem.
  - unfold crosstab. cbn [columns]. apply sorted_unique_NoDup.
  - intros s c. split.
    + intros (row & Hrow & <- & <-).
      apply crosstab_rows_elem in Hrow as (s & c & Hs & Hc & ->). done.
    + intros [Hs Hc]. eexists. split; [apply crosstab_rows_elem; eauto|]. done.
  - apply crosstab_index_NoDup.
  - intros row Hrow. apply crosstab_rows_elem in Hrow as (s & c & _ & _ & ->).
    unfold crosstab, normalize_index. cbn [columns cells seg stage]. split.
    + by rewrite !length_fmap.
    + intros j n Hj Hgrp. rewrite !list_lookup_fmap, Hj. simpl.
      unfold cell_sum. by rewrite Hgrp.
Qed.

Lemma base_matrices_shape_witness :
  ("stage_3" ∈ columns (base_matrices sample_records) <->
   "stage_3" ∈ next_stage <$> filter (fun r => next_stage r ≠ "exit") sample_records) /\
  (exists row, row ∈ rows (base_matrices sample_records) /\
               seg row = "sme" /\ stage row = "stage_1") /\
  cells {| seg := "sme"; stage := "stage_1"; cells := [Fin 0; Fin 0] |} !! 1%nat
    = Some (Fin 0).
Proof.
  pose proof (base_matrices_shape sample_records) as (Hcols & _ & Hrows & _ & Hcells).
  split; [apply Hcols|]. split.
  - apply Hrows. split; apply list_elem_of_In; vm_compute; auto.
  - apply (proj2 (Hcells {| seg := "sme"; stage := "stage_1"; cells := [Fin 0; Fin 0] |}
                   ltac:(apply list_elem_of_In; vm_compute; auto)) 1%nat "stage_3");
      by vm_compute.
Defined.

(** * Further properties of the engine *)

(** ** What [extract_pds] and [absorbing_state] do to the store *)

(** [extract_pds] only reads: whatever it is given and whether it returns or
    raises, the store after the call is the store before it. *)
Theorem extract_pds_reads_only (l : loc) (matrix_size : Z) (h : gmap nat DataFrame) :
  (extract_pds l matrix_size h).2 = h.
Proof.
  destruct (decide (matrix_size ∈ [3; 4])) as [Hsize|Hbad].
  - rewrite extract_pds_run by done.
    destruct (h !! l) as [df|]; [|done]. by destruct (for_each _ _ _).
  - unfold extract_pds. by rewrite decide_True.
Qed.

Lemma for_in_app {A} (xs ys : list A) (body : A -> State ()) (h : gmap nat DataFrame) :
  for_in (xs ++ ys) body h =
    match for_in xs body h with
    | (Ok _, h') => for_in ys body h'
    | (Raise e, h') => (Raise e, h')
    end.
Proof.
  revert h. induction xs as [|x xs IH]; intros h; [done|].
  cbn [app for_in]. unfold mbind, State_bind.
  destruct (body x h) as [[[]|e] h1]; [apply IH|done].
Qed.

(** A segment with too few rows stops [absorbing_state] with an
    [IndexError]; the segments that precede it in the index have by then
    been overwritten, and stay so. *)
Theorem absorbing_state_fails_midway (l : loc) (matrix_size : Z)
    (h : gmap nat DataFrame) (df : DataFrame) (pre post : list string) (s : string) :
  matrix_size ∈ [3; 4] ->
  h !! l = Some df ->
  segments df = pre ++ s :: post ->
  length (columns df) = Z.to_nat matrix_size ->
  Forall (fun s' => (Z.to_nat matrix_size <= length (loc_rows s' df))%nat) pre ->
  (length (loc_rows s df) < Z.to_nat matrix_size)%nat ->
  absorbing_state l matrix_size h =
    (Raise (IndexError enlarge_msg),
     <[l := {| columns := columns df;
               rows := absorb_rows (Z.to_nat (matrix_size - 1))
                         (absorbing_row (Z.to_nat matrix_size)) pre (rows df) |}]> h).
Proof.
  intros Hsize Hl Hsegs Hcols Hpre Hs.
  assert (matrix_size = 3 \/ matrix_size = 4) as Hcases by set_solver.
  rewrite absorbing_state_run, Hl, Hsegs, for_in_app by done.
  set (k := Z.to_nat (matrix_size - 1)). set (v := absorbing_row (Z.to_nat matrix_size)).
  assert (length v = length (columns df)) as Hv.
  { unfold v, absorbing_row, unit_vector. by rewrite length_fmap, length_seq. }
  rewrite (for_in_setitem_ok l k v pre h df Hl).
  - set (df1 := {| columns := columns df; rows := absorb_rows k v pre (rows df) |}).
    cbn [for_in]. unfold mbind, State_bind.
    rewrite (setitem_run l s k v _ df1) by apply lookup_insert_eq.
    assert (length (loc_rows s df1) = length (loc_rows s df)) as Hlen.
    { unfold loc_rows, df1. cbn [rows].
      rewrite <- !(length_fmap cells), absorb_rows_values.
      case_decide; [by rewrite length_insert|done]. }
    assert (s ∈ segments df) as Hin by (rewrite Hsegs; set_solver).
    apply segments_elem in Hin as (r & Hr & Hseg).
    assert (loc_rows s df ≠ []) as Hne.
    { unfold loc_rows. intros Hnil.
      assert (r ∈ filter (fun r => seg r = s) (rows df)) as Hrin
        by (by apply list_elem_of_filter).
      rewrite Hnil in Hrin. by apply elem_of_nil in Hrin. }
    rewrite decide_False.
    + rewrite decide_True by (rewrite Hlen; unfold k; lia). done.
    + intros Hnil. apply Hne. apply length_zero_iff_nil.
      rewrite <- Hlen, Hnil. done.
  - eapply Forall_impl; [exact Hpre|]. intros s' Hs'. simpl in Hs'. unfold k. lia.
  - done.
Qed.

Lemma absorbing_state_fails_midway_witness :
  absorbing_state 0%nat 3 {[ 0%nat := ragged_frame ]} =
    (Raise (IndexError enlarge_msg),
     <[0%nat := {| columns := columns ragged_frame;
                   rows := absorb_rows (Z.to_nat (3 - 1)) (absorbing_row (Z.to_nat 3))
                             ["mortgage"] (rows ragged_frame) |}]> {[ 0%nat := ragged_frame ]}).
Proof.
  apply (absorbing_state_fails_midway 0%nat 3 {[ 0%nat := ragged_frame ]} ragged_frame
           ["mortgage"] [] "retail").
  - apply list_elem_of_In. simpl. auto.
  - reflexivity.
  - by vm_compute.
  - reflexivity.
  - repeat constructor.
  - vm_compute. lia.
Defined.

Lemma cumulative_first_raise (M : list (list float64)) (row col : nat) (e : exn) :
  (P ← matrix_power M 1; index2 P row col) = Raise e ->
  cumulative M row col = Raise e.
Proof.
  intros H1. unfold cumulative. change (seq 1 300) with (1%nat :: seq 2 299).
  cbn [comprehension]. by rewrite H1.
Qed.

Lemma segment_loop_first_raise (df : DataFrame) (matrix_size : Z) (s : string)
    (segs : list string) (sd : StageDicts) (e : exn) :
  (0 < Z.to_nat (matrix_size - 1))%nat ->
  cumulative (loc_values s df) 0 (Z.to_nat (matrix_size - 1)) = Raise e ->
  for_each (pd_segment_step df matrix_size) (s :: segs) sd = Raise e.
Proof.
  intros Hpos Hcum. cbn [for_each].
  assert (pd_segment_step df matrix_size sd s = Raise e) as ->; [|done].
  unfold pd_segment_step.
  destruct (Z.to_nat (matrix_size - 1)) as [|n] eqn:Hn; [lia|].
  cbn [seq for_each].
  assert (pd_stage_step (loc_values s df) matrix_size s sd 0 = Raise e) as ->; [|done].
  unfold pd_stage_step. rewrite Hn, Hcum. done.
Qed.

(** [matrix_size] is not checked against the frame.  On a frame of 3 x 3
    blocks, [matrix_size = 4] passes both guards and then fails with an
    [IndexError] at the first segment, the store untouched: in
    [absorbing_state] at the write to row 3, in [extract_pds] at the read of
    column 3. *)
Theorem matrix_size_4_on_3x3_blocks (l : loc) (h : gmap nat DataFrame) (df : DataFrame) :
  h !! l = Some df -> well_shaped 3 df -> rows df ≠ [] ->
  absorbing_state l 4 h = (Raise (IndexError enlarge_msg), h) /\
  extract_pds l 4 h = (Raise (IndexError "index is out of bounds for axis 1"), h).
Proof.
  intros Hl Hshape Hrows.
  assert (exists s segs, segments df = s :: segs) as (s & segs & Hsegs).
  { unfold segments. destruct (rows df) as [|r rs]; [done|]. simpl. eauto. }
  assert (s ∈ segments df) as Hs by (rewrite Hsegs; set_solver).
  pose proof (well_shaped_block 3 df s Hshape Hs) as [Hm Hn].
  split.
  - rewrite absorbing_state_run, Hl, Hsegs by set_solver.
    cbn [for_in]. unfold mbind, State_bind.
    rewrite (setitem_run _ _ _ _ _ _ Hl).
    unfold loc_values in Hm. rewrite length_fmap in Hm.
    rewrite decide_False by (intros Hnil; by rewrite Hnil in Hm).
    rewrite decide_True by (rewrite Hm; simpl; lia). done.
  - rewrite extract_pds_run, Hl, Hsegs by set_solver.
    rewrite (segment_loop_first_raise df 4 s segs _
               (IndexError "index is out of bounds for axis 1")); [done|simpl; lia|].
    apply cumulative_first_raise. unfold matrix_power.
    rewrite (proj2 (is_square_shape (loc_values s df))) by (by rewrite Hm).
    cbn [mbind result_bind mat_pow]. unfold index2.
    destruct (loc_values s df) as [|r0 M] eqn:HM; [done|].
    apply Forall_cons in Hn as [Hr0 _]. cbn [lookup list_lookup].
    rewrite lookup_ge_None_2 by (rewrite Hr0; simpl; lia). done.
Qed.

Lemma matrix_size_4_on_3x3_blocks_witness :
  absorbing_state 0%nat 4 {[ 0%nat := sample_frame ]}
    = (Raise (IndexError enlarge_msg), {[ 0%nat := sample_frame ]}) /\
  extract_pds 0%nat 4 {[ 0%nat := sample_frame ]}
    = (Raise (IndexError "index is out of bounds for axis 1"), {[ 0%nat := sample_frame ]}).
Proof.
  apply (matrix_size_4_on_3x3_blocks 0%nat {[ 0%nat := sample_frame ]} sample_frame).
  - reflexivity.
  - exact sample_frame_well_shaped.
  - discriminate.
Defined.

(** ** What [extract_pds] returns on square blocks *)

Lemma extract_pds_spec (l : loc) (matrix_size : Z) (h : gmap nat DataFrame)
    (df : DataFrame) (n : nat) :
  matrix_size ∈ [3; 4] -> h !! l = Some df ->
  (forall k, k ∈ segments df -> has_shape n n (loc_values k df)) ->
  (Z.to_nat matrix_size <= n)%nat ->
  exists out, extract_pds l matrix_size h = (Ok out, h) /\
    length out = (2 * Z.to_nat (matrix_size - 1))%nat /\
    forall k s, k ∈ segments df -> (s <= Z.to_nat (matrix_size - 2))%nat ->
      exists cum, pd_column out s k = Some cum /\
        pd_column out (Z.to_nat (matrix_size - 1) + s) k = Some (marginal cum) /\
        cumulative (loc_values k df) s (Z.to_nat (matrix_size - 1)) = Ok cum.
Proof.
  intros Hsize Hl Hshape Hn.
  assert (matrix_size = 3 \/ matrix_size = 4) as Hcases by set_solver.
  rewrite extract_pds_run, Hl by done.
  set (sd0 := replicate (Z.to_nat (matrix_size - 1))
                (@nil (string * list float64), @nil (string * list float64))).
  destruct (segment_loop_ok df matrix_size (segments df)) with (sd := sd0) as [sd Hrun].
  { intros k s Hk Hs. eapply (cumulative_ok n); [by apply Hshape|lia..]. }
  rewrite Hrun. eexists. split; [reflexivity|].
  destruct (segment_loop_inv _ _ _ _ _ Hrun) as (Hlen & _ & Hin).
  assert (length sd = Z.to_nat (matrix_size - 1)) as Hlen'.
  { rewrite Hlen. apply length_replicate. }
  split.
  - rewrite length_app, !length_fmap. lia.
  - intros k s Hk Hs.
    destruct (Hin s k Hk) as (cum & Hcum & Hgc & Hgm);
      [lia|unfold sd0; rewrite length_replicate; lia|].
    exists cum. split; [by rewrite pd_column_cum by lia|]. split; [|exact Hcum].
    rewrite <- Hlen', pd_column_marg. exact Hgm.
Qed.

(** On a frame of 4 x 4 blocks, [matrix_size = 3] is not refused either:
    [absorbing_state] fails on the three-value tuple that does not fit a row
    of four columns, the store untouched, while [extract_pds] returns four
    tables read from column 2 of the powers, which is not the last column of
    the blocks. *)
Theorem matrix_size_3_on_4x4_blocks (l : loc) (h : gmap nat DataFrame) (df : DataFrame) :
  h !! l = Some df -> well_shaped 4 df -> rows df ≠ [] ->
  absorbing_state l 3 h = (Raise (ValueError shape_msg), h) /\
  exists out, extract_pds l 3 h = (Ok out, h) /\ length out = 4%nat /\
    forall k s, k ∈ segments df -> (s <= 1)%nat ->
      exists cum, pd_column out s k = Some cum /\
        forall t, (1 <= t <= 300)%nat ->
          exists x, cum !! (t - 1)%nat = Some x /\
            entry (mat_pow (loc_values k df) t) s 2 = Some x.
Proof.
  intros Hl Hshape Hrows.
  assert (exists s segs, segments df = s :: segs) as (s & segs & Hsegs).
  { unfold segments. destruct (rows df) as [|r rs]; [done|]. simpl. eauto. }
  assert (s ∈ segments df) as Hs by (rewrite Hsegs; set_solver).
  pose proof (well_shaped_block 4 df s Hshape Hs) as [Hm Hn].
  split.
  - rewrite absorbing_state_run, Hl, Hsegs by set_solver.
    cbn [for_in]. unfold mbind, State_bind.
    rewrite (setitem_run _ _ _ _ _ _ Hl).
    unfold loc_values in Hm. rewrite length_fmap in Hm.
    rewrite decide_False by (intros Hnil; by rewrite Hnil in Hm).
    rewrite decide_False by (rewrite Hm; simpl; lia).
    destruct Hshape as (Hcols & _). rewrite decide_True by (by rewrite Hcols). done.
  - destruct (extract_pds_spec l 3 h df 4) as (out & Hrun & Hlen & Hout);
      [set_solver|done|intros k Hk; by apply well_shaped_block|simpl; lia|].
    exists out. split; [done|]. split; [done|].
    intros k s' Hk Hs'. destruct (Hout k s' Hk) as (cum & Hc & _ & Hcum); [simpl; lia|].
    exists cum. split; [done|].
    by apply cumulative_inv in Hcum as (_ & _ & Hentries).
Qed.

Lemma matrix_size_3_on_4x4_blocks_witness :
  absorbing_state 0%nat 3 {[ 0%nat := sample_frame4 ]}
    = (Raise (ValueError shape_msg), {[ 0%nat := sample_frame4 ]}) /\
  exists out, extract_pds 0%nat 3 {[ 0%nat := sample_frame4 ]}
                = (Ok out, {[ 0%nat := sample_frame4 ]}) /\ length out = 4%nat /\
    forall k s, k ∈ segments sample_frame4 -> (s <= 1)%nat ->
      exists cum, pd_column out s k = Some cum /\
        forall t, (1 <= t <= 300)%nat ->
          exists x, cum !! (t - 1)%nat = Some x /\
            entry (mat_pow (loc_values k sample_frame4) t) s 2 = Some x.
Proof.
  apply (matrix_size_3_on_4x4_blocks 0%nat {[ 0%nat := sample_frame4 ]} sample_frame4).
  - reflexivity.
  - unfold well_shaped. split; [reflexivity|]. split.
    + repeat constructor.
    + vm_compute. repeat constructor.
  - discriminate.
Defined.

(** The value at the first horizon, cumulative and marginal alike, is the
    one-step probability of moving from the originating stage to the column
    [matrix_size - 1] of the segment's own matrix. *)
Theorem first_horizon_is_one_step (l : loc) (matrix_size : Z) (h h' : gmap nat DataFrame)
    (df : DataFrame) (out : list Dict) :
  matrix_size ∈ [3; 4] -> h !! l = Some df ->
  extract_pds l matrix_size h = (Ok out, h') ->
  forall k s, k ∈ segments df -> (s <= Z.to_nat (matrix_size - 2))%nat ->
    exists cum marg x,
      pd_column out s k = Some cum /\
      pd_column out (Z.to_nat (matrix_size - 1) + s) k = Some marg /\
      cum !! 0%nat = Some x /\ marg !! 0%nat = Some x /\
      entry (loc_values k df) s (Z.to_nat (matrix_size - 1)) = Some x.
Proof.
  intros Hsize Hl Hrun k s Hk Hs.
  assert (matrix_size = 3 \/ matrix_size = 4) as Hcases by set_solver.
  rewrite extract_pds_run, Hl in Hrun by done.
  destruct (for_each _ _ _) as [sd|e] eqn:Hloop; [|done].
  injection Hrun as <- <-.
  destruct (segment_loop_inv _ _ _ _ _ Hloop) as (Hlen & _ & Hin).
  rewrite length_replicate in Hlen.
  destruct (Hin s k Hk) as (cum & Hcum & Hgc & Hgm); [lia|rewrite length_replicate; lia|].
  apply cumulative_inv in Hcum as (_ & _ & Hentries).
  destruct (Hentries 1%nat) as (x & Hx & Hentry); [lia|].
  exists cum, (marginal cum), x.
  split; [by rewrite pd_column_cum by lia|].
  split; [by rewrite <- Hlen, pd_column_marg|].
  split; [exact Hx|]. split; [by rewrite marginal_first|exact Hentry].
Qed.

Lemma first_horizon_is_one_step_witness :
  exists out, extract_pds 0%nat 3 {[ 0%nat := sample_frame_absorbed ]}
                = (Ok out, {[ 0%nat := sample_frame_absorbed ]}) /\
    forall k s, k ∈ segments sample_frame_absorbed -> (s <= Z.to_nat (3 - 2))%nat ->
      exists cum marg x,
        pd_column out s k = Some cum /\
        pd_column out (Z.to_nat (3 - 1) + s) k = Some marg /\
        cum !! 0%nat = Some x /\ marg !! 0%nat = Some x /\
        entry (loc_values k sample_frame_absorbed) s (Z.to_nat (3 - 1)) = Some x.
Proof.
  destruct (extract_pds_returns 0%nat 3 {[ 0%nat := sample_frame_absorbed ]}
              sample_frame_absorbed) as [out Hout].
  - apply list_elem_of_In. simpl. auto.
  - reflexivity.
  - unfold well_shaped. split; [reflexivity|]. split.
    + repeat constructor.
    + vm_compute. repeat constructor.
  - exists out. split; [exact Hout|].
    apply (first_horizon_is_one_step 0%nat 3 {[ 0%nat := sample_frame_absorbed ]}
             {[ 0%nat := sample_frame_absorbed ]} sample_frame_absorbed out).
    + apply list_elem_of_In. simpl. auto.
    + reflexivity.
    + exact Hout.
Defined.

(** ** The columns of the returned tables *)

Lemma dict_set_keys (k : string) (v : list float64) (d : Dict) :
  (dict_set k v d).*1 = if decide (k ∈ d.*1) then d.*1 else d.*1 ++ [k].
Proof.
  induction d as [|[k' v'] d IH].
  - cbn [dict_set fmap list_fmap fst].
    destruct (decide (k ∈ [])); [set_solver|done].
  - cbn [dict_set]. destruct (decide (k' = k)) as [->|Hne]; cbn [fmap list_fmap fst].
    + destruct (decide (k ∈ k :: d.*1)); [done|set_solver].
    + rewrite IH.
      destruct (decide (k ∈ d.*1)), (decide (k ∈ k' :: d.*1)); try done; set_solver.
Qed.

Lemma dict_get_elem (k : string) (v : list float64) (d : Dict) :
  NoDup d.*1 -> (k, v) ∈ d -> dict_get k d = Some v.
Proof.
  induction d as [|[k' v'] d IH]; intros Hnd Hin; [by apply elem_of_nil in Hin|].
  simpl in *. apply NoDup_cons in Hnd as [Hk' Hnd].
  apply elem_of_cons in Hin as [[= -> ->]|Hin].
  - by rewrite decide_True.
  - rewrite decide_False; [by apply IH|].
    intros ->. apply Hk'. apply list_elem_of_fmap. by exists (k, v).
Qed.

Lemma stage_loop_lookup (M : list (list float64)) (matrix_size : Z) (k : string)
    (stages : list nat) :
  forall sd sd' : StageDicts,
  for_each (pd_stage_step M matrix_size k) stages sd = Ok sd' ->
  NoDup stages ->
  forall i d, sd !! i = Some d ->
    exists d', sd' !! i = Some d' /\
      (i ∈ stages -> exists cum,
         d' = (dict_set k cum d.1, dict_set k (marginal cum) d.2)) /\
      (i ∉ stages -> d' = d).
Proof.
  induction stages as [|a stages IH]; intros sd sd' Hrun Hnd i d Hi.
  - injection Hrun as <-. exists d. split; [done|]. split; [|done].
    intros Hin. by apply elem_of_nil in Hin.
  - cbn [for_each] in Hrun.
    destruct (pd_stage_step M matrix_size k sd a) as [sd1|e] eqn:Hstep; [|done].
    simpl in Hrun. apply pd_stage_step_inv in Hstep as (cum & Hcum & ->).
    apply NoDup_cons in Hnd as [Ha Hnd].
    destruct (decide (i = a)) as [->|Hia].
    + destruct (IH _ _ Hrun Hnd a (dict_set k cum d.1, dict_set k (marginal cum) d.2))
        as (d' & Hd' & _ & Hout).
      { by rewrite list_lookup_alter_eq, Hi. }
      exists d'. split; [done|]. split; [|set_solver].
      intros _. exists cum. by apply Hout.
    + destruct (IH _ _ Hrun Hnd i d) as (d' & Hd' & Hin & Hout).
      { by rewrite list_lookup_alter_ne. }
      exists d'. split; [done|]. split.
      * intros Hi'. apply Hin. set_solver.
      * intros Hi'. apply Hout. set_solver.
Qed.

Lemma stage_loop_keys (M : list (list float64)) (matrix_size : Z) (k : string)
    (sd sd' : StageDicts) (ks : list string) :
  for_each (pd_stage_step M matrix_size k) (seq 0 (length sd)) sd = Ok sd' ->
  keys_are ks sd ->
  keys_are (if decide (k ∈ ks) then ks else ks ++ [k]) sd'.
Proof.
  intros Hrun Hkeys. unfold keys_are in *.
  pose proof (stage_loop_inv _ _ _ _ _ _ Hrun) as (Hlen & _).
  apply Forall_lookup. intros i d' Hd'.
  assert (i < length sd)%nat as Hi by (rewrite <- Hlen; by eapply lookup_lt_Some).
  destruct (lookup_lt_is_Some_2 sd i Hi) as [d Hd].
  destruct (stage_loop_lookup _ _ _ _ _ _ Hrun (NoDup_seq _ _) i d Hd)
    as (d'' & Hd'' & Hin & _).
  rewrite Hd' in Hd''. injection Hd'' as <-.
  destruct Hin as (cum & ->); [apply elem_of_seq; lia|].
  rewrite Forall_lookup in Hkeys. destruct (Hkeys i d Hd) as [H1 H2].
  cbn [fst snd]. by rewrite !dict_set_keys, H1, H2.
Qed.

Lemma segment_loop_keys (df : DataFrame) (matrix_size : Z) (segs : list string) :
  forall (sd sd' : StageDicts) (ks : list string),
  length sd = Z.to_nat (matrix_size - 1) ->
  for_each (pd_segment_step df matrix_size) segs sd = Ok sd' ->
  keys_are ks sd -> NoDup segs -> (forall k, k ∈ segs -> k ∉ ks) ->
  keys_are (ks ++ segs) sd'.
Proof.
  induction segs as [|a segs IH]; intros sd sd' ks Hlen Hrun Hkeys Hnd Hdisj.
  - injection Hrun as <-. by rewrite app_nil_r.
  - cbn [for_each] in Hrun.
    destruct (pd_segment_step df matrix_size sd a) as [sd1|e] eqn:Hstep; [|done].
    simpl in Hrun. unfold pd_segment_step in Hstep. rewrite <- Hlen in Hstep.
    pose proof (stage_loop_keys _ _ _ _ _ ks Hstep Hkeys) as Hkeys1.
    rewrite decide_False in Hkeys1 by (apply Hdisj; set_solver).
    pose proof (stage_loop_inv _ _ _ _ _ _ Hstep) as (Hlen1 & _).
    apply NoDup_cons in Hnd as [Ha Hnd].
    replace (ks ++ a :: segs) with ((ks ++ [a]) ++ segs) by (by rewrite <- app_assoc).
    apply (IH sd1 sd' (ks ++ [a])); [congruence|done|done|done|].
    intros k Hk. rewrite elem_of_app, list_elem_of_singleton.
    intros [Hin| ->]; [|done]. apply (Hdisj k); [set_solver|done].
Qed.

(** Every table [extract_pds] returns has one column per segment of the
    frame, in the order in which the segments first appear in the index, and
    300 rows. *)
Theorem extract_pds_table_shape (l : loc) (matrix_size : Z) (h h' : gmap nat DataFrame)
    (df : DataFrame) (out : list Dict) :
  matrix_size ∈ [3; 4] -> h !! l = Some df ->
  extract_pds l matrix_size h = (Ok out, h') ->
  Forall (fun table : Dict =>
            table.*1 = segments df /\
            Forall (fun column => length column = 300%nat) table.*2) out.
Proof.
  intros Hsize Hl Hrun.
  assert (matrix_size = 3 \/ matrix_size = 4) as Hcases by set_solver.
  rewrite extract_pds_run, Hl in Hrun by done.
  destruct (for_each _ _ _) as [sd|e] eqn:Hloop; [|done].
  injection Hrun as <- <-.
  pose proof (segment_loop_keys df matrix_size (segments df) _ sd []
                (length_replicate _ _) Hloop) as Hkeys.
  simpl in Hkeys. unfold keys_are in Hkeys.
  assert (Forall (fun d : Dict * Dict => d.1.*1 = segments df /\ d.2.*1 = segments df) sd)
    as Hk.
  { apply Hkeys; [by apply Forall_replicate|apply unique_NoDup|set_solver]. }
  destruct (segment_loop_inv _ _ _ _ _ Hloop) as (Hlen & _ & Hin).
  rewrite length_replicate in Hlen.
  assert (forall i d kv, sd !! i = Some d -> kv ∈ d.1 \/ kv ∈ d.2 -> length kv.2 = 300%nat)
    as Hcols.
  { intros i d [k v] Hd Hkv.
    assert (i < Z.to_nat (matrix_size - 1))%nat as Hi
      by (rewrite <- Hlen; by eapply lookup_lt_Some).
    rewrite Forall_lookup in Hk. destruct (Hk i d Hd) as [Hk1 Hk2].
    assert (k ∈ segments df) as Hkin.
    { destruct Hkv as [Hkv|Hkv];
        [rewrite <- Hk1|rewrite <- Hk2]; apply list_elem_of_fmap; by exists (k, v). }
    destruct (Hin i k Hkin Hi) as (cum & Hcum & Hgc & Hgm);
      [rewrite length_replicate; lia|].
    unfold get_cum, get_marg in Hgc, Hgm. rewrite Hd in Hgc, Hgm. simpl in Hgc, Hgm.
    apply cumulative_inv in Hcum as (_ & Hlen300 & _).
    destruct Hkv as [Hkv|Hkv].
    - rewrite (dict_get_elem k v d.1) in Hgc; [|rewrite Hk1; apply unique_NoDup|done].
      injection Hgc as ->. done.
    - rewrite (dict_get_elem k v d.2) in Hgm; [|rewrite Hk2; apply unique_NoDup|done].
      injection Hgm as ->. simpl. by rewrite marginal_length. }
  apply Forall_app. split; apply Forall_fmap, Forall_lookup; intros i d Hd; simpl.
  - rewrite Forall_lookup in Hk. destruct (Hk i d Hd) as [-> _]. split; [done|].
    apply Forall_fmap, Forall_forall. intros kv Hkv. eapply Hcols; eauto.
  - rewrite Forall_lookup in Hk. destruct (Hk i d Hd) as [_ ->]. split; [done|].
    apply Forall_fmap, Forall_forall. intros kv Hkv. eapply Hcols; eauto.
Qed.

Lemma extract_pds_table_shape_witness :
  exists out, extract_pds 0%nat 3 {[ 0%nat := sample_frame_absorbed ]}
                = (Ok out, {[ 0%nat := sample_frame_absorbed ]}) /\
    Forall (fun table : Dict =>
              table.*1 = segments sample_frame_absorbed /\
              Forall (fun column => length column = 300%nat) table.*2) out.
Proof.
  destruct (extract_pds_returns 0%nat 3 {[ 0%nat := sample_frame_absorbed ]}
              sample_frame_absorbed) as [out Hout].
  - apply list_elem_of_In. simpl. auto.
  - reflexivity.
  - unfold well_shaped. split; [reflexivity|]. split.
    + repeat constructor.
    + vm_compute. repeat constructor.
  - exists out. split; [exact Hout|].
    apply (extract_pds_table_shape 0%nat 3 {[ 0%nat := sample_frame_absorbed ]}
             {[ 0%nat := sample_frame_absorbed ]} sample_frame_absorbed out).
    + apply list_elem_of_In. simpl. auto.
    + reflexivity.
    + exact Hout.
Defined.


(** ** Marginal probabilities as increments *)

Section Increments.
Local Open Scope Q_scope.

Lemma nth_floats (c : list Q) (i : nat) : nth i (Fin <$> c) (Fin 0) = Fin (nth i c 0).
Proof.
  revert i. induction c as [|x c IH]; intros [|i]; try done. apply IH.
Qed.

Lemma marginal_floats (c : list Q) : marginal (Fin <$> c) = Fin <$> marginal c.
Proof.
  unfold marginal. rewrite length_fmap, <- list_fmap_compose.
  apply list_fmap_ext. intros _ i _. cbn [compose].
  change (@zero float64 _) with (Fin 0). change (@zero Q _) with 0.
  rewrite !nth_floats. by destruct (Nat.eqb i 0).
Qed.

Lemma Qsum_app (u v : list Q) : Qsum (u ++ v) == Qsum u + Qsum v.
Proof.
  induction u as [|x u IH]; [change (Qsum v == 0 + Qsum v); ring|].
  cbn [app]. rewrite !Qsum_cons, IH. ring.
Qed.

Lemma marginal_Q_next (c : list Q) (t : nat) (a b : Q) :
  c !! t = Some b -> c !! S t = Some a -> exists m, marginal c !! S t = Some m /\ m == a - b.
Proof.
  intros Hb Ha. exists (sub a b). split; [by apply marginal_next|].
  apply Qred_correct.
Qed.

(** The first [t + 1] marginal values add up to the cumulative value at
    index [t]. *)
Lemma marginal_telescopes (c : list Q) (t : nat) (x : Q) :
  c !! t = Some x -> Qsum (take (S t) (marginal c)) == x.
Proof.
  revert x. induction t as [|t IH]; intros x Hx.
  - pose proof (marginal_first c) as H0. rewrite Hx in H0.
    rewrite (take_S_r _ _ _ H0), Qsum_app. change (0 + (x + 0) == x). ring.
  - destruct (lookup_lt_is_Some_2 c t) as [b Hb]; [apply lookup_lt_Some in Hx; lia|].
    destruct (marginal_Q_next c t x b Hb Hx) as (m & Hm & Hmq).
    rewrite (take_S_r _ _ _ Hm), Qsum_app, (IH b Hb).
    change (Qsum [m]) with (m + 0). rewrite Hmq. ring.
Qed.

Lemma marginal_nonneg (c : list Q) :
  (forall x, c !! 0%nat = Some x -> 0 <= x) ->
  (forall t a b, c !! t = Some a -> c !! S t = Some b -> a <= b) ->
  nonneg (marginal c).
Proof.
  intros H0 Hmono. apply Forall_lookup. intros i m Hm.
  assert (i < length c)%nat as Hi by (rewrite <- marginal_length; by eapply lookup_lt_Some).
  destruct i as [|i].
  - rewrite marginal_first in Hm. by apply H0.
  - destruct (lookup_lt_is_Some_2 c i) as [b Hb]; [lia|].
    destruct (lookup_lt_is_Some_2 c (S i)) as [a Ha]; [lia|].
    destruct (marginal_Q_next c i a b Hb Ha) as (m' & Hm' & Hmq).
    rewrite Hm in Hm'. injection Hm' as <-. rewrite Hmq.
    pose proof (Hmono i b a Hb Ha). lra.
Qed.
End Increments.

(** On a frame of row-stochastic blocks with the absorbing last row, the
    marginal sequence of every segment and originating stage holds
    non-negative finite values; its first [t + 1] values add up to the
    cumulative value at index [t]; and all 300 of them add up to at most 1. *)
Theorem marginal_pd_are_increments (l : loc) (matrix_size : Z)
    (h : gmap nat DataFrame) (df : DataFrame) :
  matrix_size ∈ [3; 4] ->
  h !! l = Some df ->
  absorbing_stochastic (Z.to_nat matrix_size) df ->
  exists out, extract_pds l matrix_size h = (Ok out, h) /\
    forall k s, k ∈ segments df -> (s <= Z.to_nat (matrix_size - 2))%nat ->
      exists cum marg : list Q,
        pd_column out s k = Some (Fin <$> cum) /\
        pd_column out (Z.to_nat (matrix_size - 1) + s) k = Some (Fin <$> marg) /\
        nonneg marg /\
        (forall t x, cum !! t = Some x -> (Qsum (take (S t) marg) == x)%Q) /\
        (Qsum marg <= 1)%Q.
Proof.
  intros Hsize Hl Hdf.
  assert (matrix_size = 3 \/ matrix_size = 4) as Hcases by set_solver.
  destruct (extract_pds_spec l matrix_size h df (Z.to_nat matrix_size))
    as (out & Hrun & _ & Hout); [done|done| |lia|].
  { intros k Hk. destruct (Hdf k Hk) as (M & -> & [HM _] & _). by apply floats_shape. }
  exists out. split; [done|]. intros k s Hk Hs.
  destruct (Hout k s Hk Hs) as (c & Hc & Hm & Hcum).
  destruct (Hdf k Hk) as (M & HM & Hst & Hlast). rewrite HM in Hcum.
  replace (Z.to_nat (matrix_size - 1)) with (Z.to_nat matrix_size - 1)%nat in Hcum by lia.
  pose proof (cumulative_inv _ _ _ _ Hcum) as (_ & Hlen & _).
  destruct (cumulative_stochastic _ _ _ _ Hst Hlast Hcum) as (cum & -> & Hbound & Hmono).
  rewrite length_fmap in Hlen.
  exists cum, (marginal cum). split; [done|]. split; [by rewrite <- marginal_floats|].
  split; [|split].
  - apply marginal_nonneg; [|done]. intros x Hx. by apply (Hbound 0%nat).
  - intros t x Hx. by apply marginal_telescopes.
  - destruct (lookup_lt_is_Some_2 cum 299) as [x Hx]; [lia|].
    rewrite <- (firstn_all (marginal cum)), marginal_length, Hlen.
    rewrite (marginal_telescopes cum 299 x Hx). by apply (Hbound 299%nat).
Qed.

Lemma marginal_pd_are_increments_witness :
  exists out, extract_pds 0%nat 3 {[ 0%nat := sample_frame_absorbed ]}
                = (Ok out, {[ 0%nat := sample_frame_absorbed ]}) /\
    forall k s, k ∈ segments sample_frame_absorbed -> (s <= Z.to_nat (3 - 2))%nat ->
      exists cum marg : list Q,
        pd_column out s k = Some (Fin <$> cum) /\
        pd_column out (Z.to_nat (3 - 1) + s) k = Some (Fin <$> marg) /\
        nonneg marg /\
        (forall t x, cum !! t = Some x -> (Qsum (take (S t) marg) == x)%Q) /\
        (Qsum marg <= 1)%Q.
Proof.
  apply (marginal_pd_are_increments 0%nat 3 {[ 0%nat := sample_frame_absorbed ]}
           sample_frame_absorbed).
  - apply list_elem_of_In. simpl. auto.
  - reflexivity.
  - exact sample_absorbing_stochastic.
Defined.


(** ** When [cure_rate] returns and what it raises *)

Lemma get_column_Some_elem (name : string) (cols : list (string * list string))
    (keys : list string) :
  get_column name cols = Some keys -> name ∈ cols.*1.
Proof.
  induction cols as [|[k v] cols IH]; simpl; [done|].
  destruct (decide (k = name)) as [->|Hne]; [set_solver|].
  intros Hget. specialize (IH Hget). set_solver.
Qed.

Lemma filter_nil_not_elem (label : string) (kbs : list (string * Q)) :
  filter (fun kb => kb.1 = label) kbs = [] <-> label ∉ kbs.*1.
Proof.
  split.
  - intros Hnil Hin. apply list_elem_of_fmap in Hin as ([k b] & Hk & Hkb).
    simpl in Hk. subst k.
    assert ((label, b) ∈ filter (fun kb : string * Q => kb.1 = label) kbs) as Hf
      by (by apply list_elem_of_filter).
    rewrite Hnil in Hf. by apply elem_of_nil in Hf.
  - intros Hnot. induction kbs as [|[k b] kbs IH]; [done|].
    rewrite filter_cons_False; [apply IH; set_solver|].
    simpl. intros ->. apply Hnot. set_solver.
Qed.

Lemma groupby_sum_loc_ok_iff (df : CureTable) (by_col label : string) :
  (exists x, groupby_sum_loc df by_col label = Ok x) <-> has_label df by_col label.
Proof.
  unfold groupby_sum_loc, has_label.
  destruct (get_column by_col (categorical df)) as [keys|]; [|split; [by intros [x ?]|]].
  - destruct (filter _ _) as [|kb grp] eqn:Hf.
    + apply filter_nil_not_elem in Hf. split; [by intros [x ?]|].
      intros (keys' & [= <-] & Hin). done.
    + split; [|eauto]. intros _. exists keys. split; [done|].
      destruct (decide (label ∈ (zip keys (balances df)).*1)) as [|Hnot]; [done|].
      apply filter_nil_not_elem in Hnot. by rewrite Hnot in Hf.
  - by intros (keys & ? & _).
Qed.

Lemma groupby_sum_loc_no_label (df : CureTable) (by_col label : string) (keys : list string) :
  get_column by_col (categorical df) = Some keys ->
  ~ has_label df by_col label ->
  groupby_sum_loc df by_col label = Raise (KeyError label).
Proof.
  intros Hget Hnot. unfold groupby_sum_loc. rewrite Hget.
  destruct (filter _ _) as [|kb grp] eqn:Hf; [done|].
  exfalso. apply Hnot. apply groupby_sum_loc_ok_iff.
  unfold groupby_sum_loc. rewrite Hget, Hf. eauto.
Qed.

Lemma recoveries_column (df : CureTable) :
  "recoveries" ∈ table_columns df <-> exists keys, get_column "recoveries" (categorical df) = Some keys.
Proof.
  unfold table_columns. split.
  - intros Hin. apply elem_of_app in Hin as [Hin|Hin]; [|set_solver].
    destruct (get_column "recoveries" (categorical df)) as [keys|] eqn:Hget; [eauto|].
    exfalso. clear -Hin Hget. induction (categorical df) as [|[k v] cols IH]; [set_solver|].
    simpl in *. destruct (decide (k = "recoveries")); [done|]. set_solver.
  - intros [keys Hget]. apply elem_of_app. left. by eapply get_column_Some_elem.
Qed.

(** [cure_rate] returns exactly when the table has a [recoveries] column in
    which each of "cured", "recovered" and "stage_3" occurs. *)
Theorem cure_rate_returns_iff (df : CureTable) :
  (exists out, cure_rate df = Ok out) <->
  has_label df "recoveries" "cured" /\
  has_label df "recoveries" "recovered" /\
  has_label df "recoveries" "stage_3".
Proof.
  split.
  - intros [out Hout]. apply cure_rate_inv in Hout as (_ & M & _ & _ & HM & _).
    unfold cure_matrix in HM.
    destruct (groupby_sum_loc df "recoveries" "cured") as [x|] eqn:Hx; [|done].
    destruct (groupby_sum_loc df "recoveries" "recovered") as [y|] eqn:Hy; [|done].
    destruct (groupby_sum_loc df "recoveries" "stage_3") as [z|] eqn:Hz; [|done].
    repeat split; apply groupby_sum_loc_ok_iff; eauto.
  - intros (Hc & Hr & Hs).
    pose proof Hc as (keys & Hget & _).
    apply groupby_sum_loc_ok_iff in Hc as [x Hx], Hr as [y Hy], Hs as [z Hz].
    destruct (groupby_sum_loc_fin _ _ _ _ Hx) as [a ->].
    destruct (groupby_sum_loc_fin _ _ _ _ Hy) as [b ->].
    destruct (groupby_sum_loc_fin _ _ _ _ Hz) as [c ->].
    eapply cure_rate_returns; [apply recoveries_column; eauto|].
    by apply (cure_matrix_run df a b c).
Qed.

(** With a [recoveries] column in place, the first of "cured", "recovered",
    "stage_3" (in that order) that occurs nowhere in it is the key of the
    [KeyError] that [cure_rate] raises. *)
Theorem cure_rate_missing_category (df : CureTable) (pre post : list string) (label : string) :
  "recoveries" ∈ table_columns df ->
  ["cured"; "recovered"; "stage_3"] = pre ++ label :: post ->
  Forall (has_label df "recoveries") pre ->
  ~ has_label df "recoveries" label ->
  cure_rate df = Raise (KeyError label).
Proof.
  intros Hcol Hsplit Hpre Hnot.
  pose proof Hcol as Hcol'. apply recoveries_column in Hcol' as [keys Hget].
  pose proof (groupby_sum_loc_no_label df "recoveries" label keys Hget Hnot) as Hraise.
  unfold cure_rate. rewrite decide_True by done. unfold cure_matrix.
  destruct pre as [|p1 pre].
  - injection Hsplit as <- <-. by rewrite Hraise.
  - injection Hsplit as <- Hsplit. apply Forall_cons in Hpre as [H1 Hpre].
    apply groupby_sum_loc_ok_iff in H1 as [x ->].
    destruct pre as [|p2 pre].
    + injection Hsplit as <- <-. by rewrite Hraise.
    + injection Hsplit as <- Hsplit. apply Forall_cons in Hpre as [H2 Hpre].
      apply groupby_sum_loc_ok_iff in H2 as [y ->].
      destruct pre as [|p3 pre].
      * injection Hsplit as <- <-. by rewrite Hraise.
      * injection Hsplit as <- Hsplit. by destruct pre.
Qed.

Lemma cure_rate_missing_category_witness :
  cure_rate {| categorical := [("recoveries", ["cured"; "stage_3"])]; balances := [40; 60]%Q |}
  = Raise (KeyError "recovered").
Proof.
  apply (cure_rate_missing_category _ ["cured"] ["stage_3"] "recovered").
  - apply list_elem_of_In. simpl. auto.
  - reflexivity.
  - constructor; [|constructor]. eexists. split; [reflexivity|].
    apply list_elem_of_In. simpl. auto.
  - intros (keys & [= <-] & Hin). apply list_elem_of_In in Hin. simpl in Hin.
    intuition discriminate.
Defined.

(** Without a [recoveries] column [cure_rate] never returns: it raises a
    [KeyError], for "cures" or "cured" when the [cures] column or its
    "cured" category is missing, and for "recoveries" otherwise. *)
Theorem cure_rate_without_recoveries_raises (df : CureTable) :
  "recoveries" ∉ table_columns df ->
  exists key, cure_rate df = Raise (KeyError key) /\
    key ∈ ["cures"; "cured"; "recoveries"] /\
    (has_label df "cures" "cured" -> key = "recoveries").
Proof.
  intros Hcol. unfold cure_rate. rewrite decide_False by done.
  rewrite (groupby_sum_loc_missing df "recoveries" "stage_3" Hcol).
  destruct (groupby_sum_loc df "cures" "cured") as [x|e] eqn:Hx.
  - exists "recoveries". split; [done|]. split; [set_solver|done].
  - unfold groupby_sum_loc in Hx.
    destruct (get_column "cures" (categorical df)) as [keys|] eqn:Hget.
    + destruct (filter _ _) as [|kb grp] eqn:Hf; [|done]. injection Hx as <-.
      exists "cured". split; [done|]. split; [set_solver|].
      intros (keys' & Hget' & Hin). rewrite Hget in Hget'. injection Hget' as <-.
      apply filter_nil_not_elem in Hf. done.
    + injection Hx as <-. exists "cures". split; [done|]. split; [set_solver|].
      intros (keys' & Hget' & _). congruence.
Qed.

Lemma cure_rate_without_recoveries_raises_witness :
  exists key, cure_rate sample_cures_only = Raise (KeyError key) /\
    key ∈ ["cures"; "cured"; "recoveries"] /\
    (has_label sample_cures_only "cures" "cured" -> key = "recoveries").
Proof.
  apply (cure_rate_without_recoveries_raises sample_cures_only).
  intros Hin. apply list_elem_of_In in Hin. simpl in Hin. intuition discriminate.
Defined.


(** ** Cure and recovery rates as probabilities *)

Section AbsorbingColumn.
Local Open Scope Q_scope.

(** The mass in any absorbing state cannot decrease with one more step. *)
Lemma absorbed_mass_grows_at (n : nat) (M : list (list Q)) (t s j : nat) (a b : Q) :
  stochastic n M -> (j < n)%nat ->
  M !! j = Some (unit_vector n j) ->
  entry (mat_pow M (S t)) s j = Some a ->
  entry (mat_pow M (S (S t))) s j = Some b ->
  a <= b.
Proof.
  intros HM Hj Habs Ha Hb.
  pose proof (mat_pow_stochastic n M t HM) as [[Pm Pn] Prows].
  pose proof HM as [[Hm Hn] Hrows].
  change (mat_pow M (S (S t))) with (mat_mul (length M) (mat_pow M (S t)) M) in Hb.
  unfold entry, mat_mul in *. rewrite list_lookup_fmap in Hb.
  destruct (mat_pow M (S t) !! s) as [r|] eqn:Hr; [|done]. simpl in *.
  assert (unit_vector (A:=Q) n j !! j = Some 1) as Hone.
  { unfold unit_vector. rewrite list_lookup_fmap, lookup_seq_lt by lia. simpl.
    by rewrite Nat.eqb_refl. }
  rewrite Hm in Hb.
  assert (a * 1 <= b) as Hle.
  { eapply (vec_mat_entry_ge n M); [| |exact Ha|exact Habs|exact Hone|exact Hb].
    - eapply Forall_impl; [exact Hrows|]. by intros b0 [Hb0 _].
    - rewrite Forall_forall in Prows.
      apply (Prows r). by eapply list_elem_of_lookup_2. }
  lra.
Qed.

Lemma cumulative_stochastic_at (n : nat) (M : list (list Q)) (s j : nat) (c : list float64) :
  stochastic n M -> (j < n)%nat ->
  M !! j = Some (unit_vector n j) ->
  cumulative (floats M) s j = Ok c ->
  exists cum : list Q, c = Fin <$> cum /\ length cum = 300%nat /\
    (forall t x, cum !! t = Some x -> entry (mat_pow M (S t)) s j = Some x) /\
    (forall t x, cum !! t = Some x -> 0 <= x <= 1) /\
    (forall t a b, cum !! t = Some a -> cum !! S t = Some b -> a <= b).
Proof.
  intros HM Hj Habs Hc.
  apply cumulative_inv in Hc as (_ & Hlen & Hentries).
  set (g := fun t => default 0 (entry (mat_pow M t) s j)).
  assert (forall t, (t < 300)%nat ->
            c !! t = Some (Fin (g (S t))) /\
            entry (mat_pow M (S t)) s j = Some (g (S t))) as Hg.
  { intros t Ht. destruct (Hentries (S t)) as (x & Hx & Hex); [lia|].
    rewrite mat_pow_floats, entry_floats in Hex.
    simpl in Hx. rewrite Nat.sub_0_r in Hx. unfold g.
    destruct (entry (mat_pow M (S t)) s j) as [q|]; [|done].
    injection Hex as <-. done. }
  assert (forall t x, (g <$> seq 1 300) !! t = Some x ->
            (t < 300)%nat /\ x = g (S t)) as Hlook.
  { intros t x Hx. rewrite list_lookup_fmap in Hx.
    destruct (seq 1 300 !! t) as [t'|] eqn:Ht'; [|done].
    apply lookup_seq in Ht' as [-> Ht]. injection Hx as <-. done. }
  exists (g <$> seq 1 300). split; [|split; [|split; [|split]]].
  - apply list_eq. intros t. rewrite list_lookup_fmap.
    destruct (decide (t < 300)%nat) as [Ht|Ht].
    + rewrite list_lookup_fmap, lookup_seq_lt by done. simpl.
      by destruct (Hg t Ht) as [-> _].
    + rewrite lookup_ge_None_2 by lia.
      rewrite lookup_ge_None_2; [done|]. rewrite length_fmap, length_seq. lia.
  - by rewrite length_fmap, length_seq.
  - intros t x Hx. apply Hlook in Hx as [Ht ->]. by apply Hg.
  - intros t x Hx. apply Hlook in Hx as [Ht ->].
    destruct (Hg t Ht) as [_ Hentry]. unfold entry in Hentry.
    destruct (mat_pow M (S t) !! s) as [r|] eqn:Hr; [|done]. simpl in Hentry.
    pose proof (mat_pow_stochastic n M t HM) as [_ Hrows].
    rewrite Forall_forall in Hrows.
    eapply stochastic_entry; [|exact Hentry].
    apply Hrows. by eapply list_elem_of_lookup_2.
  - intros t a b Ha Hb. apply Hlook in Ha as [Ht1 ->]. apply Hlook in Hb as [Ht2 ->].
    destruct (Hg t Ht1) as [_ Hea]. destruct (Hg (S t) Ht2) as [_ Heb].
    by eapply absorbed_mass_grows_at.
Qed.

Lemma cure_row_shares (a b c : Q) :
  0 < a + b + c ->
  exists tot, tot == a + b + c /\
    (fun x => fdiv x (vsum [Fin a; Fin b; Fin c])) <$> [Fin a; Fin b; Fin c]
    = Fin <$> [Qred (a / tot); Qred (b / tot); Qred (c / tot)].
Proof.
  intros Hpos. exists (Qred (a + Qred (b + Qred (c + 0)))).
  assert (Qred (a + Qred (b + Qred (c + 0))) == a + b + c) as HS.
  { rewrite !Qred_correct. ring. }
  split; [exact HS|].
  change (vsum [Fin a; Fin b; Fin c]) with (Fin (Qred (a + Qred (b + Qred (c + 0))))).
  cbn [fmap list_fmap]. unfold fdiv.
  assert (Qis_zero (Qred (a + Qred (b + Qred (c + 0)))) = false) as ->; [|done].
  unfold Qis_zero. destruct (Qeq_bool _ 0) eqn:E; [|done].
  apply Qeq_bool_eq in E. lra.
Qed.

Lemma two_entries_le_sum (r : list Q) (x0 x1 : Q) :
  nonneg r -> r !! 0%nat = Some x0 -> r !! 1%nat = Some x1 -> x0 + x1 <= Qsum r.
Proof.
  intros Hr H0 H1. destruct r as [|y0 [|y1 r]]; try done.
  injection H0 as ->. injection H1 as ->.
  apply Forall_cons in Hr as [_ Hr]. apply Forall_cons in Hr as [_ Hr].
  rewrite !Qsum_cons. pose proof (Qsum_nonneg r Hr). lra.
Qed.
End AbsorbingColumn.

Lemma cure_rate_run (df : CureTable) (M : list (list float64)) (cc cr : list float64) :
  "recoveries" ∈ table_columns df -> cure_matrix df = Ok M ->
  cumulative M 2 0 = Ok cc -> cumulative M 2 1 = Ok cr ->
  cure_rate df = Ok [("cure_rates", marginal cc); ("recovery_rates", marginal cr)].
Proof.
  intros Hcol HM Hcc Hcr. unfold cure_rate. rewrite decide_True by done.
  rewrite HM. cbn [mbind result_bind]. rewrite Hcc. cbn [mbind result_bind].
  rewrite Hcr. done.
Qed.

Lemma absorbing_pair_rates (M : list (list Q)) (cc cr : list float64) :
  stochastic 3 M ->
  M !! 0%nat = Some (unit_vector 3 0) -> M !! 1%nat = Some (unit_vector 3 1) ->
  cumulative (floats M) 2 0 = Ok cc -> cumulative (floats M) 2 1 = Ok cr ->
  exists qc qr : list Q,
    cc = Fin <$> qc /\ cr = Fin <$> qr /\
    length qc = 300%nat /\ length qr = 300%nat /\
    nonneg (marginal qc) /\ nonneg (marginal qr) /\
    (Qsum (marginal qc) + Qsum (marginal qr) <= 1)%Q /\
    qc !! 0%nat = entry M 2 0 /\ qr !! 0%nat = entry M 2 1.
Proof.
  intros Hst H0 H1 Hcc Hcr.
  destruct (cumulative_stochastic_at 3 M 2 0 cc Hst) as (qc & -> & Hlc & Hec & Hbc & Hmc);
    [lia|exact H0|exact Hcc|].
  destruct (cumulative_stochastic_at 3 M 2 1 cr Hst) as (qr & -> & Hlr & Her & Hbr & Hmr);
    [lia|exact H1|exact Hcr|].
  exists qc, qr. repeat split; try done.
  - apply marginal_nonneg; [|done]. intros x Hx. by apply (Hbc 0%nat).
  - apply marginal_nonneg; [|done]. intros x Hx. by apply (Hbr 0%nat).
  - destruct (lookup_lt_is_Some_2 qc 299) as [x0 Hx0]; [lia|].
    destruct (lookup_lt_is_Some_2 qr 299) as [x1 Hx1]; [lia|].
    rewrite <- (firstn_all (marginal qc)), <- (firstn_all (marginal qr)).
    rewrite !marginal_length, Hlc, Hlr.
    rewrite (marginal_telescopes qc 299 x0 Hx0), (marginal_telescopes qr 299 x1 Hx1).
    apply Hec in Hx0. apply Her in Hx1. unfold entry in Hx0, Hx1.
    destruct (mat_pow M 300 !! 2%nat) as [r300|] eqn:Hr300; [|done].
    simpl in Hx0, Hx1.
    pose proof (mat_pow_stochastic 3 M 299 Hst) as [_ Hrows].
    rewrite Forall_forall in Hrows.
    destruct (Hrows r300) as [Hnn Hsum]; [by eapply list_elem_of_lookup_2|].
    rewrite <- Hsum. by apply two_entries_le_sum.
  - destruct (lookup_lt_is_Some_2 qc 0) as [x Hx]; [lia|].
    rewrite Hx. symmetry. by apply (Hec 0%nat).
  - destruct (lookup_lt_is_Some_2 qr 0) as [y Hy]; [lia|].
    rewrite Hy. symmetry. by apply (Her 0%nat).
Qed.

(** When the aggregated balances of "cured", "recovered" and "stage_3" are
    non-negative with a positive sum, [cure_rate] returns two columns of 300
    non-negative finite rates; the first cure rate is the cured share of the
    aggregated balance, the first recovery rate the recovered share; and
    all cure and recovery rates together add up to at most 1. *)
Theorem cure_rates_are_probabilities (df : CureTable) (a b c : Q) :
  groupby_sum_loc df "recoveries" "cured" = Ok (Fin a) ->
  groupby_sum_loc df "recoveries" "recovered" = Ok (Fin b) ->
  groupby_sum_loc df "recoveries" "stage_3" = Ok (Fin c) ->
  (0 <= a)%Q -> (0 <= b)%Q -> (0 <= c)%Q -> (0 < a + b + c)%Q ->
  exists mc mr : list Q,
    cure_rate df = Ok [("cure_rates", Fin <$> mc); ("recovery_rates", Fin <$> mr)] /\
    length mc = 300%nat /\ length mr = 300%nat /\
    nonneg mc /\ nonneg mr /\
    (Qsum mc + Qsum mr <= 1)%Q /\
    exists x y, mc !! 0%nat = Some x /\ mr !! 0%nat = Some y /\
      (x == a / (a + b + c))%Q /\ (y == b / (a + b + c))%Q.
Proof.
  intros Ha Hb Hc Ha0 Hb0 Hc0 Hpos.
  destruct (cure_row_shares a b c Hpos) as (tot & HS & Hrow).
  remember ([[1; 0; 0]; [0; 1; 0];
             [Qred (a / tot); Qred (b / tot); Qred (c / tot)]]%Q) as MQ eqn:HMQ.
  assert (cure_matrix df = Ok (floats MQ)) as HM.
  { rewrite (cure_matrix_run df a b c Ha Hb Hc), Hrow, HMQ. done. }
  assert (stochastic 3 MQ) as Hst.
  { rewrite HMQ. assert (0 < / tot)%Q as Hinv by (apply Qinv_lt_0_compat; lra).
    split; [split; [reflexivity|repeat constructor]|].
    assert (forall u : list Q, u = [1; 0; 0]%Q \/ u = [0; 1; 0]%Q -> stochastic_row u) as Hunit.
    { intros u [-> | ->]; (split; [repeat constructor; lra|unfold Qsum; simpl; lra]). }
    repeat (apply Forall_cons; split); [apply Hunit; auto..| |constructor].
    split.
    - repeat constructor; rewrite Qred_correct; unfold Qdiv;
        apply Qmult_le_0_compat; lra.
    - unfold Qsum. cbn [foldr]. rewrite !Qred_correct, HS. field. lra. }
  assert ("recoveries" ∈ table_columns df) as Hcol.
  { apply recoveries_column. unfold groupby_sum_loc in Ha.
    destruct (get_column "recoveries" (categorical df)); [eauto|done]. }
  assert (MQ !! 0%nat = Some (unit_vector 3 0) /\ MQ !! 1%nat = Some (unit_vector 3 1) /\
          entry MQ 2 0 = Some (Qred (a / tot)) /\ entry MQ 2 1 = Some (Qred (b / tot)))
    as (H0 & H1 & He0 & He1) by (by rewrite HMQ).
  clear HMQ.
  destruct (cumulative_ok 3 (floats MQ) 2 0) as [cc Hcc]; [by apply floats_shape, Hst|lia..|].
  destruct (cumulative_ok 3 (floats MQ) 2 1) as [cr Hcr]; [by apply floats_shape, Hst|lia..|].
  destruct (absorbing_pair_rates MQ cc cr Hst H0 H1 Hcc Hcr)
    as (qc & qr & -> & -> & Hlc & Hlr & Hnc & Hnr & Hsum & Hc0' & Hr0').
  exists (marginal qc), (marginal qr).
  split; [rewrite <- !marginal_floats; by apply (cure_rate_run df (floats MQ))|].
  rewrite !marginal_length. repeat (split; [done|]).
  exists (Qred (a / tot)), (Qred (b / tot)). rewrite !marginal_first.
  split; [congruence|]. split; [congruence|].
  split; (etransitivity; [apply Qred_correct|]); unfold Qdiv;
    (apply Qmult_comp; [reflexivity|apply Qinv_comp; exact HS]).
Qed.

Lemma cure_rates_are_probabilities_witness :
  exists mc mr : list Q,
    cure_rate sample_recoveries
      = Ok [("cure_rates", Fin <$> mc); ("recovery_rates", Fin <$> mr)] /\
    length mc = 300%nat /\ length mr = 300%nat /\
    nonneg mc /\ nonneg mr /\
    (Qsum mc + Qsum mr <= 1)%Q /\
    exists x y, mc !! 0%nat = Some x /\ mr !! 0%nat = Some y /\
      (x == 30 / (30 + 20 + 50))%Q /\ (y == 20 / (30 + 20 + 50))%Q.
Proof.
  apply (cure_rates_are_probabilities sample_recoveries 30 20 50);
    try (by vm_compute); lra.
Defined.


(** ** The index of the matrix builder's frame *)

Lemma crosstab_index (df : list Transition) :
  index (crosstab df) =
    sorted_unique (loan_type <$> df) ≫= fun s =>
      (fun c => (s, c)) <$> sorted_unique (current_stage <$> df).
Proof.
  unfold index, crosstab. cbn [rows].
  induction (sorted_unique (loan_type <$> df)) as [|s segs IH]; [done|].
  csimpl. rewrite fmap_app, IH, <- list_fmap_compose. done.
Qed.

Lemma product_sorted (segs curs : list string) :
  StronglySorted label_lt segs -> StronglySorted label_lt curs ->
  StronglySorted index_lt (segs ≫= fun s => (fun c => (s, c)) <$> curs).
Proof.
  intros Hsegs Hcurs. induction Hsegs as [|s segs Hsorted IH Hall]; csimpl; [constructor|].
  apply StronglySorted_app_2; [| |exact IH].
  - intros p q Hp Hq.
    apply list_elem_of_fmap in Hp as (c & -> & _).
    apply list_elem_of_bind in Hq as (s' & Hq & Hs').
    apply list_elem_of_fmap in Hq as (c' & -> & _).
    left. simpl. rewrite Forall_forall in Hall. by apply Hall.
  - clear IH. induction Hcurs as [|c curs Hcs IHc Hallc]; [constructor|].
    cbn [fmap list_fmap]. constructor; [exact IHc|].
    apply Forall_fmap. eapply Forall_impl; [exact Hallc|].
    intros c' Hc'. right. done.
Qed.

(** The frame [base_matrices] returns has its columns in strictly
    increasing order and its (Loan Segment, Current Stage) index in strictly
    increasing lexical order: the index is lexsorted and has no duplicate. *)
Theorem base_matrices_lexsorted (recs : list Transition) :
  StronglySorted label_lt (columns (base_matrices recs)) /\
  StronglySorted index_lt (index (base_matrices recs)).
Proof.
  unfold base_matrices. split.
  - unfold crosstab. cbn [columns]. apply sorted_unique_sorted.
  - rewrite crosstab_index. apply product_sorted; apply sorted_unique_sorted.
Qed.

Lemma bind_filter_seg (segs curs : list string) (f : string -> string -> Row) (s : string) :
  (forall s' c, seg (f s' c) = s') -> NoDup segs -> s ∈ segs ->
  filter (fun r => seg r = s) (segs ≫= fun s' => f s' <$> curs) = f s <$> curs.
Proof.
  intros Hf Hnd Hs.
  assert (forall s', filter (fun r => seg r = s) (f s' <$> curs)
                     = if decide (s' = s) then f s' <$> curs else []) as Hone.
  { intros s'. induction curs as [|c curs IHc]; [by case_decide|].
    cbn [fmap list_fmap]. rewrite filter_cons, Hf, IHc. by case_decide. }
  induction Hnd as [|a segs Ha Hnd IH]; [by apply elem_of_nil in Hs|].
  csimpl. rewrite filter_app, Hone.
  destruct (decide (a = s)) as [->|Hne].
  - assert (filter (fun r => seg r = s) (segs ≫= fun s' => f s' <$> curs) = []) as ->;
      [|by rewrite app_nil_r].
    clear IH Hs Hnd. induction segs as [|b segs IHs]; [done|].
    csimpl. rewrite filter_app, Hone, decide_False by set_solver.
    apply IHs. set_solver.
  - apply IH. set_solver.
Qed.

Lemma crosstab_loc_rows (df : list Transition) (s : string) :
  s ∈ loan_type <$> df ->
  loc_rows s (crosstab df) =
    (fun c => {| seg := s; stage := c;
                 cells := normalize_index
                            (cell_sum df s c <$> sorted_unique (next_stage <$> df)) |})
      <$> sorted_unique (current_stage <$> df).
Proof.
  intros Hs. unfold loc_rows, crosstab. cbn [rows].
  apply (bind_filter_seg _ _
           (fun s c => {| seg := s; stage := c;
                          cells := normalize_index
                                     (cell_sum df s c <$> sorted_unique (next_stage <$> df)) |}));
    [done|apply sorted_unique_NoDup|by apply sorted_unique_elem].
Qed.

Lemma crosstab_segments_elem (df : list Transition) (s : string) :
  s ∈ segments (crosstab df) -> s ∈ loan_type <$> df.
Proof.
  intros Hs. apply segments_elem in Hs as (r & Hr & <-).
  apply crosstab_rows_elem in Hr as (s & c & Hs & _ & ->). done.
Qed.

(** When the non-exit records show exactly [n] current stages and [n] next
    stages, every segment of the frame [base_matrices] returns owns an
    [n] x [n] block. *)
Lemma base_matrices_well_shaped (recs : list Transition) (n : nat) :
  let kept := filter (fun r => next_stage r ≠ "exit") recs in
  length (sorted_unique (current_stage <$> kept)) = n ->
  length (sorted_unique (next_stage <$> kept)) = n ->
  well_shaped n (base_matrices recs).
Proof.
  intros kept Hcur Hnxt. unfold base_matrices. fold kept. split; [|split].
  - unfold crosstab. by cbn [columns].
  - apply Forall_forall. intros row Hrow.
    apply crosstab_rows_elem in Hrow as (s & c & _ & _ & ->).
    unfold normalize_index. cbn [cells]. by rewrite !length_fmap.
  - apply Forall_forall. intros s Hs. apply crosstab_segments_elem in Hs.
    rewrite crosstab_loc_rows by done. by rewrite length_fmap.
Qed.

Lemma absorb_rows_cells (k n : nat) (v : list float64) (segs : list string) (rs : list Row) :
  length v = n -> Forall (fun r => length (cells r) = n) rs ->
  Forall (fun r => length (cells r) = n) (absorb_rows k v segs rs).
Proof.
  intros Hv. unfold absorb_rows. revert rs.
  assert (forall s k rs, Forall (fun r => length (cells r) = n) rs ->
            Forall (fun r => length (cells r) = n) (set_row s k v rs)) as Hset.
  { intros s k' rs Hrs. revert k'. induction Hrs as [|r rs Hr Hrs IH]; intros k'; [constructor|].
    cbn [set_row]. destruct (decide (seg r = s)).
    - destruct k'; constructor; auto.
    - constructor; auto. }
  induction segs as [|s segs IH]; intros rs Hrs; [done|]. cbn [foldl]. auto.
Qed.

Lemma absorbed_well_shaped (n : nat) (df : DataFrame) :
  well_shaped n df ->
  well_shaped n {| columns := columns df;
                   rows := absorb_rows (n - 1) (absorbing_row n) (segments df) (rows df) |}.
Proof.
  intros (Hcols & Hrows & Hsegs). unfold well_shaped. cbn [columns rows].
  split; [done|]. split.
  - apply absorb_rows_cells; [|done].
    unfold absorbing_row, unit_vector. by rewrite length_fmap, length_seq.
  - replace (segments {| columns := columns df;
                         rows := absorb_rows (n - 1) (absorbing_row n) (segments df) (rows df) |})
      with (segments df) by (unfold segments; cbn [rows]; by rewrite absorb_rows_seg).
    eapply Forall_impl; [exact Hsegs|]. intros s Hs. simpl in *.
    unfold loc_rows in *. cbn [rows].
    rewrite <- !(length_fmap cells), absorb_rows_values.
    case_decide; [by rewrite length_insert, length_fmap|by rewrite length_fmap].
Qed.

(** The three steps compose: when the non-exit records show exactly
    [matrix_size] current stages and [matrix_size] next stages, with
    [matrix_size] 3 or 4, [absorbing_state] returns on the frame of
    [base_matrices], and [extract_pds] returns on the frame it leaves. *)
Theorem pipeline_returns (recs : list Transition) (matrix_size : Z) (l : loc)
    (h : gmap nat DataFrame) :
  let kept := filter (fun r => next_stage r ≠ "exit") recs in
  matrix_size ∈ [3; 4] ->
  length (sorted_unique (current_stage <$> kept)) = Z.to_nat matrix_size ->
  length (sorted_unique (next_stage <$> kept)) = Z.to_nat matrix_size ->
  h !! l = Some (base_matrices recs) ->
  exists h' out,
    absorbing_state l matrix_size h = (Ok l, h') /\
    extract_pds l matrix_size h' = (Ok out, h') /\
    length out = (2 * Z.to_nat (matrix_size - 1))%nat.
Proof.
  intros kept Hsize Hcur Hnxt Hl.
  assert (matrix_size = 3 \/ matrix_size = 4) as Hcases by set_solver.
  pose proof (base_matrices_well_shaped recs _ Hcur Hnxt) as Hshape.
  set (df := base_matrices recs) in *.
  pose proof Hshape as (Hcols & Hrows & Hsegs).
  assert (Z.to_nat (matrix_size - 1) = (Z.to_nat matrix_size - 1)%nat) as Hk by lia.
  pose proof (absorbed_well_shaped _ _ Hshape) as Hshape1.
  set (df1 := {| columns := columns df;
                 rows := absorb_rows (Z.to_nat matrix_size - 1)
                           (absorbing_row (Z.to_nat matrix_size))
                           (segments df) (rows df) |}) in *.
  destruct (extract_pds_spec l matrix_size (<[l := df1]> h) df1 (Z.to_nat matrix_size)
              Hsize (lookup_insert_eq _ _ _))
    as (out & Hrun & Hlen & _); [|lia|].
  { intros k Hk'. by apply well_shaped_block. }
  exists (<[l := df1]> h), out. split; [|by split].
  rewrite absorbing_state_run, Hl by done.
  rewrite (for_in_setitem_ok _ _ _ _ _ _ Hl).
  - by rewrite Hk.
  - eapply Forall_impl; [exact Hsegs|]. intros s Hs. simpl in Hs. lia.
  - intros _. rewrite Hcols. unfold absorbing_row, unit_vector.
    by rewrite length_fmap, length_seq.
Qed.

Lemma pipeline_returns_witness :
  exists h' out,
    absorbing_state 0%nat 3 {[ 0%nat := base_matrices sample_records3 ]} = (Ok 0%nat, h') /\
    extract_pds 0%nat 3 h' = (Ok out, h') /\
    length out = (2 * Z.to_nat (3 - 1))%nat.
Proof.
  apply (pipeline_returns sample_records3 3 0%nat {[ 0%nat := base_matrices sample_records3 ]}).
  - apply list_elem_of_In. simpl. auto.
  - by vm_compute.
  - by vm_compute.
  - apply lookup_singleton_eq.
Defined.


(** ** From records to probability-of-default curves *)

Section Pipeline.
Local Open Scope Q_scope.

Lemma unit_vector_sum (n j a : nat) :
  Qsum ((fun i => if Nat.eqb j i then 1 else 0) <$> seq a n)
  == if decide (a <= j < a + n)%nat then 1 else 0.
Proof.
  revert a. induction n as [|n IH]; intros a.
  - cbn [seq fmap list_fmap]. case_decide; [lia|reflexivity].
  - cbn [seq fmap list_fmap]. rewrite Qsum_cons, IH.
    destruct (Nat.eqb_spec j a) as [->|Hne];
      repeat case_decide; try lia; ring.
Qed.

Lemma unit_vector_stochastic (n j : nat) : (j < n)%nat -> stochastic_row (unit_vector n j).
Proof.
  intros Hj. split.
  - unfold unit_vector. apply Forall_fmap, Forall_forall. intros i _. simpl.
    destruct (Nat.eqb j i); by compute.
  - unfold unit_vector. change (@one Q _) with 1. change (@zero Q _) with 0.
    rewrite unit_vector_sum. case_decide; [reflexivity|lia].
Qed.

Lemma absorbing_row_floats (n : nat) : absorbing_row n = Fin <$> unit_vector n (n - 1).
Proof.
  unfold absorbing_row, unit_vector. rewrite <- list_fmap_compose.
  apply list_fmap_ext. intros _ i _. simpl. by destruct (Nat.eqb (n - 1) i).
Qed.

(** A row whose pair has a positive total of non-negative balances is
    normalised into finite shares that form a probability vector. *)
Lemma normalised_row_positive (recs : list Transition) (s c : string) :
  (forall r, r ∈ recs -> 0 <= out_balance r) ->
  0 < Qsum (out_balance <$> observations recs s c) ->
  let kept := filter (fun r => next_stage r ≠ "exit") recs in
  let v := cell_sum kept s c <$> sorted_unique (next_stage <$> kept) in
  normalize_index v = Fin <$> normalised_shares v /\
  stochastic_row (normalised_shares v) /\
  length (normalised_shares v) = length v.
Proof.
  intros Hnn Hpos kept v.
  set (nxts := sorted_unique (next_stage <$> kept)) in *.
  set (obs := observations recs s c) in *.
  assert (nonneg (out_balance <$> obs)) as Hobs.
  { apply Forall_fmap, Forall_forall. intros r Hr. simpl. apply Hnn.
    unfold obs, observations in Hr. by apply list_elem_of_filter in Hr as [_ Hr]. }
  assert (forall n, nonneg (out_balance <$> group kept s c n)) as Hgrp.
  { intros n. apply Forall_fmap, Forall_forall. intros r Hr. simpl.
    apply group_elem in Hr as [Hr _]. apply Hnn.
    unfold observations in Hr. by apply list_elem_of_filter in Hr as [_ Hr]. }
  assert (Forall raw_cell v) as Hraw.
  { apply Forall_fmap, Forall_forall. intros n _. apply cell_sum_raw. }
  assert (Forall (fun x => 0 <= cell_value x) v) as Hvnn.
  { apply Forall_fmap, Forall_forall. intros n _. simpl.
    destruct (cell_sum_raw kept s c n) as [_ ->]. apply Qsum_nonneg, Hgrp. }
  destruct (nansum_raw v Hraw) as (tot & Htot & Htotq).
  destruct (Qsum_pos_elem _ Hobs Hpos) as (b & Hb & Hb0).
  apply list_elem_of_fmap in Hb as (r & -> & Hr).
  assert (next_stage r ∈ nxts) as Hn.
  { apply sorted_unique_elem, list_elem_of_fmap. exists r. split; [done|].
    unfold kept. apply list_elem_of_filter.
    unfold obs, observations in Hr. apply list_elem_of_filter in Hr. naive_solver. }
  assert (0 < tot) as Htotpos.
  { rewrite Htotq.
    assert (cell_value (cell_sum kept s c (next_stage r)) ∈ cell_value <$> v) as Hin.
    { apply list_elem_of_fmap. eexists. split; [done|].
      apply list_elem_of_fmap. by exists (next_stage r). }
    apply Qsum_ge_elem in Hin; [|by apply Forall_fmap].
    destruct (cell_sum_raw kept s c (next_stage r)) as [_ Hval].
    rewrite Hval in Hin.
    assert (out_balance r ∈ out_balance <$> group kept s c (next_stage r)) as Hr'.
    { apply list_elem_of_fmap. exists r. split; [done|]. by apply group_elem. }
    apply Qsum_ge_elem in Hr'; [|apply Hgrp]. lra. }
  assert (~ tot == 0) as Hnz by lra.
  unfold normalised_shares. rewrite Htot. cbn [cell_value].
  split; [by apply normalize_index_shares|]. split.
  - split; [by apply shares_nonneg|].
    rewrite shares_sum by done. rewrite <- Htotq. field. exact Hnz.
  - unfold shares. by rewrite length_fmap.
Qed.
End Pipeline.

Lemma floats_of_rows (B : list (list float64)) (n : nat) :
  Forall (fun row => exists qs, row = Fin <$> qs /\ stochastic_row qs /\ length qs = n) B ->
  exists M, B = floats M /\ Forall stochastic_row M /\ Forall (fun r => length r = n) M.
Proof.
  induction 1 as [|row B (qs & -> & Hst & Hlen) HB (M & -> & HM & HMn)].
  - by exists [].
  - exists (qs :: M). split; [done|]. split; by constructor.
Qed.

(** The curves of a frame of stochastic absorbing blocks. *)
Lemma stochastic_frame_curves (l : loc) (matrix_size : Z)
    (h : gmap nat DataFrame) (df : DataFrame) :
  matrix_size ∈ [3; 4] ->
  h !! l = Some df ->
  absorbing_stochastic (Z.to_nat matrix_size) df ->
  exists out, extract_pds l matrix_size h = (Ok out, h) /\
    forall k s, k ∈ segments df -> (s <= Z.to_nat (matrix_size - 2))%nat ->
      exists cum : list Q, pd_column out s k = Some (Fin <$> cum) /\
        length cum = 300%nat /\
        (forall t x, cum !! t = Some x -> (0 <= x <= 1)%Q) /\
        (forall t a b, cum !! t = Some a -> cum !! S t = Some b -> (a <= b)%Q).
Proof.
  intros Hsize Hl Hdf.
  assert (matrix_size = 3 \/ matrix_size = 4) as Hcases by set_solver.
  destruct (extract_pds_spec l matrix_size h df (Z.to_nat matrix_size))
    as (out & Hrun & _ & Hout); [done|done| |lia|].
  { intros k Hk. destruct (Hdf k Hk) as (M & -> & [HM _] & _). by apply floats_shape. }
  exists out. split; [done|]. intros k s Hk Hs.
  destruct (Hout k s Hk Hs) as (c & Hc & _ & Hcum).
  destruct (Hdf k Hk) as (M & HM & Hst & Hlast). rewrite HM in Hcum.
  replace (Z.to_nat (matrix_size - 1)) with (Z.to_nat matrix_size - 1)%nat in Hcum by lia.
  pose proof (cumulative_inv _ _ _ _ Hcum) as (_ & Hlen & _).
  destruct (cumulative_stochastic _ _ _ _ Hst Hlast Hcum) as (cum & -> & Hbound & Hmono).
  rewrite length_fmap in Hlen. by exists cum.
Qed.

(** End to end.  Take records with non-negative balances that show exactly
    [matrix_size] current and [matrix_size] next stages among the non-exit
    records, and in which every segment has a positive observed balance for
    each current stage but the last one.  Then [base_matrices],
    [absorbing_state] and [extract_pds] in turn all return, and for every
    segment and every originating stage the cumulative sequence holds finite
    values that lie in [0, 1] and never decrease. *)
Theorem pipeline_pd_curves (recs : list Transition) (matrix_size : Z) (l : loc)
    (h : gmap nat DataFrame) :
  let kept := filter (fun r => next_stage r ≠ "exit") recs in
  let curs := sorted_unique (current_stage <$> kept) in
  (forall r, r ∈ recs -> (0 <= out_balance r)%Q) ->
  matrix_size ∈ [3; 4] ->
  length curs = Z.to_nat matrix_size ->
  length (sorted_unique (next_stage <$> kept)) = Z.to_nat matrix_size ->
  (forall s c i, s ∈ loan_type <$> kept -> curs !! i = Some c ->
     (i < Z.to_nat matrix_size - 1)%nat ->
     (0 < Qsum (out_balance <$> observations recs s c))%Q) ->
  h !! l = Some (base_matrices recs) ->
  exists h' out,
    absorbing_state l matrix_size h = (Ok l, h') /\
    extract_pds l matrix_size h' = (Ok out, h') /\
    forall k s, k ∈ loan_type <$> kept -> (s <= Z.to_nat (matrix_size - 2))%nat ->
      exists cum : list Q, pd_column out s k = Some (Fin <$> cum) /\
        length cum = 300%nat /\
        (forall t x, cum !! t = Some x -> (0 <= x <= 1)%Q) /\
        (forall t a b, cum !! t = Some a -> cum !! S t = Some b -> (a <= b)%Q).
Proof.
  intros kept curs Hnn Hsize Hcur Hnxt Hpos Hl.
  assert (matrix_size = 3 \/ matrix_size = 4) as Hcases by set_solver.
  set (n := Z.to_nat matrix_size) in *.
  set (nxts := sorted_unique (next_stage <$> kept)) in *.
  pose proof (base_matrices_well_shaped recs n Hcur Hnxt) as Hshape.
  set (df := base_matrices recs) in *.
  pose proof Hshape as (Hcols & Hrows & Hsegs).
  assert (Z.to_nat (matrix_size - 1) = (n - 1)%nat) as Hk by lia.
  set (df1 := {| columns := columns df;
                 rows := absorb_rows (n - 1) (absorbing_row n) (segments df) (rows df) |}).
  assert (segments df1 = segments df) as Hsegs1.
  { unfold segments, df1. cbn [rows]. by rewrite absorb_rows_seg. }
  assert (forall s, s ∈ segments df <-> s ∈ loan_type <$> kept) as Hsegelem.
  { intros s. split; [apply crosstab_segments_elem|].
    intros Hs. apply segments_elem.
    destruct (lookup_lt_is_Some_2 curs 0) as [c Hc]; [lia|].
    exists {| seg := s; stage := c;
              cells := normalize_index (cell_sum kept s c <$> nxts) |}.
    split; [|reflexivity].
    apply crosstab_rows_elem. exists s, c. split; [done|]. split; [|reflexivity].
    apply sorted_unique_elem. by eapply list_elem_of_lookup_2. }
  assert (absorbing_stochastic n df1) as Hst.
  { intros s Hs. rewrite Hsegs1 in Hs. pose proof Hs as Hs'. apply Hsegelem in Hs'.
    set (v := fun c => cell_sum kept s c <$> nxts).
    assert (loc_values s df1
            = <[(n - 1)%nat := absorbing_row n]> ((fun c => normalize_index (v c)) <$> curs))
      as Hblock.
    { unfold loc_values, loc_rows, df1. cbn [rows]. rewrite absorb_rows_values.
      rewrite decide_True by done. f_equal.
      change (filter (fun r => seg r = s) (rows df)) with (loc_rows s (crosstab kept)).
      rewrite crosstab_loc_rows by done. by rewrite <- list_fmap_compose. }
    set (M := <[(n - 1)%nat := unit_vector n (n - 1)]>
                ((fun c => normalised_shares (v c)) <$> curs)).
    exists M. split; [|split; [split; [split|]|]].
    - rewrite Hblock. unfold floats, M. rewrite list_fmap_insert, <- absorbing_row_floats.
      rewrite <- list_fmap_compose. apply list_eq. intros i.
      destruct (decide (i = n - 1)%nat) as [->|Hi].
      + rewrite !list_lookup_insert_eq by (rewrite length_fmap; lia). done.
      + rewrite !list_lookup_insert_ne by done. rewrite !list_lookup_fmap.
        destruct (curs !! i) as [c|] eqn:Hc; [|done]. simpl. f_equal.
        apply (normalised_row_positive recs s c Hnn).
        apply (Hpos s c i Hs' Hc). apply lookup_lt_Some in Hc. lia.
    - unfold M. by rewrite length_insert, length_fmap.
    - unfold M. apply Forall_lookup. intros i r Hr.
      destruct (decide (i = n - 1)%nat) as [->|Hi].
      + rewrite list_lookup_insert_eq in Hr by (rewrite length_fmap; lia).
        injection Hr as <-. unfold unit_vector. by rewrite length_fmap, length_seq.
      + rewrite list_lookup_insert_ne, list_lookup_fmap in Hr by done.
        destruct (curs !! i) as [c|] eqn:Hc; [|done]. injection Hr as <-.
        destruct (normalised_row_positive recs s c Hnn) as (_ & _ & Hlen).
        * apply (Hpos s c i Hs' Hc). apply lookup_lt_Some in Hc. lia.
        * unfold v. etrans; [exact Hlen|]. by rewrite length_fmap.
    - unfold M. apply Forall_lookup. intros i r Hr.
      destruct (decide (i = n - 1)%nat) as [->|Hi].
      + rewrite list_lookup_insert_eq in Hr by (rewrite length_fmap; lia).
        injection Hr as <-. apply unit_vector_stochastic. lia.
      + rewrite list_lookup_insert_ne, list_lookup_fmap in Hr by done.
        destruct (curs !! i) as [c|] eqn:Hc; [|done]. injection Hr as <-.
        apply (normalised_row_positive recs s c Hnn).
        apply (Hpos s c i Hs' Hc). apply lookup_lt_Some in Hc. lia.
    - unfold M. apply list_lookup_insert_eq. rewrite length_fmap. lia. }
  destruct (stochastic_frame_curves l matrix_size (<[l := df1]> h) df1 Hsize
              (lookup_insert_eq _ _ _) Hst) as (out & Hrun & Hout).
  exists (<[l := df1]> h), out. split; [|split; [exact Hrun|]].
  - rewrite absorbing_state_run, Hl by done.
    rewrite (for_in_setitem_ok _ _ _ _ _ _ Hl).
    + by rewrite Hk.
    + eapply Forall_impl; [exact Hsegs|]. intros s Hs. simpl in Hs. lia.
    + intros _. rewrite Hcols. unfold absorbing_row, unit_vector.
      by rewrite length_fmap, length_seq.
  - intros k s Hk' Hs. apply Hout; [|done]. rewrite Hsegs1. by apply Hsegelem.
Qed.

Lemma pipeline_pd_curves_witness :
  exists h' out,
    absorbing_state 0%nat 3 {[ 0%nat := base_matrices sample_records3 ]} = (Ok 0%nat, h') /\
    extract_pds 0%nat 3 h' = (Ok out, h') /\
    forall k s,
      k ∈ loan_type <$> filter (fun r => next_stage r ≠ "exit") sample_records3 ->
      (s <= Z.to_nat (3 - 2))%nat ->
      exists cum : list Q, pd_column out s k = Some (Fin <$> cum) /\
        length cum = 300%nat /\
        (forall t x, cum !! t = Some x -> (0 <= x <= 1)%Q) /\
        (forall t a b, cum !! t = Some a -> cum !! S t = Some b -> (a <= b)%Q).
Proof.
  apply (pipeline_pd_curves sample_records3 3 0%nat
           {[ 0%nat := base_matrices sample_records3 ]}).
  - intros r Hr. apply list_elem_of_In in Hr. simpl in Hr.
    repeat destruct Hr as [<-|Hr]; by compute.
  - apply list_elem_of_In. simpl. auto.
  - by vm_compute.
  - by vm_compute.
  - intros s c i Hs Hc Hi.
    assert (s = "retail") as ->.
    { apply list_elem_of_In in Hs. vm_compute in Hs. intuition. }
    destruct i as [|[|i]]; [| |simpl in Hi; lia]; vm_compute in Hc;
      injection Hc as <-; by vm_compute.
  - apply lookup_singleton_eq.
Defined.


(** ** The draft module *)

Lemma dict_set_idem (k : string) (v : list float64) (d : Dict) :
  dict_set k v (dict_set k v d) = dict_set k v d.
Proof.
  induction d as [|[k' v'] d IH]; simpl.
  - by rewrite decide_True.
  - case_decide as Hk; simpl.
    + by rewrite decide_True.
    + rewrite decide_False by done. by rewrite IH.
Qed.

Lemma dict_set_kept (k k' : string) (v v' : list float64) (d : Dict) :
  k ≠ k' -> dict_set k v d = d -> dict_set k v (dict_set k' v' d) = dict_set k' v' d.
Proof.
  intros Hne. induction d as [|[k0 v0] d IH]; simpl; [done|].
  case_decide as H0; intros Hd.
  - subst k0. rewrite (decide_False (P := k = k')) by done. simpl.
    rewrite decide_True by done. congruence.
  - injection Hd as Hd. case_decide as H1; simpl.
    + subst k0. rewrite decide_False by done. by rewrite Hd.
    + rewrite decide_False by done. by rewrite IH.
Qed.

Lemma dict_set_after (k k' : string) (v v' : list float64) (d : Dict) :
  (k = k' -> v = v') -> dict_set k v d = d ->
  dict_set k v (dict_set k' v' d) = dict_set k' v' d.
Proof.
  intros Hv Hd. destruct (decide (k = k')) as [->|Hne].
  - rewrite <- Hv by done. apply dict_set_idem.
  - by apply dict_set_kept.
Qed.

(** A loop whose body does nothing on a key it has already handled may
    skip the repeated keys. *)
Section Repeats.
Context {S : Type} (body : S -> string -> result S).
Hypothesis body_again : forall acc acc' k, body acc k = Ok acc' -> body acc' k = Ok acc'.
Hypothesis body_stable : forall acc acc' k k',
  body acc k = Ok acc -> body acc k' = Ok acc' -> body acc' k = Ok acc'.

Lemma for_each_skip (x : string) (l : list string) (acc : S) :
  body acc x = Ok acc ->
  for_each body l acc = for_each body (filter (fun y => y ≠ x) l) acc.
Proof.
  revert acc. induction l as [|y l IH]; intros acc Hx; [done|].
  rewrite filter_cons. destruct (decide (y = x)) as [->|Hy].
  - rewrite decide_False by naive_solver. simpl. rewrite Hx. simpl. by apply IH.
  - rewrite decide_True by done. simpl.
    destruct (body acc y) as [acc'|e] eqn:Hb; simpl; [|done].
    apply IH. by eapply body_stable.
Qed.

Lemma for_each_unique (l : list string) (acc : S) :
  for_each body l acc = for_each body (unique l) acc.
Proof.
  revert acc. induction l as [|x l IH]; intros acc; [done|]. simpl.
  destruct (body acc x) as [acc'|e] eqn:Hb; simpl; [|done].
  rewrite IH. apply for_each_skip. by eapply body_again.
Qed.
End Repeats.

(** Two loops whose bodies correspond step by step. *)
Lemma for_each_sim {A S T} (f : S -> T) (body1 : S -> A -> result S)
    (body2 : T -> A -> result T) (xs : list A) (acc : S) :
  (forall acc x, body2 (f acc) x
                 = match body1 acc x with Ok a => Ok (f a) | Raise e => Raise e end) ->
  for_each body2 xs (f acc)
  = match for_each body1 xs acc with Ok a => Ok (f a) | Raise e => Raise e end.
Proof.
  intros Hstep. revert acc. induction xs as [|x xs IH]; intros acc; simpl; [done|].
  rewrite Hstep. destruct (body1 acc x) as [acc'|e]; simpl; [apply IH|done].
Qed.

Lemma draft_step3_again (df : DataFrame) acc acc' k :
  draft_segment_step3 df acc k = Ok acc' -> draft_segment_step3 df acc' k = Ok acc'.
Proof.
  destruct acc as [[[c1 m1] c2] m2]. unfold draft_segment_step3.
  destruct (cumulative (loc_values k df) 0 2) as [x1|] eqn:E1; simpl; [|done].
  destruct (cumulative (loc_values k df) 1 2) as [x2|] eqn:E2; simpl; [|done].
  intros [= <-]. simpl.
  by rewrite !dict_set_idem.
Qed.

Lemma draft_step3_stable (df : DataFrame) acc acc' k k' :
  draft_segment_step3 df acc k = Ok acc -> draft_segment_step3 df acc k' = Ok acc' ->
  draft_segment_step3 df acc' k = Ok acc'.
Proof.
  destruct acc as [[[c1 m1] c2] m2]. unfold draft_segment_step3.
  destruct (cumulative (loc_values k df) 0 2) as [x1|] eqn:E1; simpl; [|done].
  destruct (cumulative (loc_values k df) 1 2) as [x2|] eqn:E2; simpl; [|done].
  intros [= H1 H2 H3 H4].
  destruct (cumulative (loc_values k' df) 0 2) as [y1|] eqn:F1; simpl; [|done].
  destruct (cumulative (loc_values k' df) 1 2) as [y2|] eqn:F2; simpl; [|done].
  intros [= <-]. simpl.
  rewrite !dict_set_after; try done; intros ->; congruence.
Qed.

Lemma draft_step4_again (df : DataFrame) acc acc' k :
  draft_segment_step4 df acc k = Ok acc' -> draft_segment_step4 df acc' k = Ok acc'.
Proof.
  destruct acc as [[[[[c1 m1] c2] m2] c3] m3]. unfold draft_segment_step4.
  destruct (cumulative (loc_values k df) 0 3) as [x1|] eqn:E1; simpl; [|done].
  destruct (cumulative (loc_values k df) 1 3) as [x2|] eqn:E2; simpl; [|done].
  destruct (cumulative (loc_values k df) 2 3) as [x3|] eqn:E3; simpl; [|done].
  intros [= <-]. simpl.
  by rewrite !dict_set_idem.
Qed.

Lemma draft_step4_stable (df : DataFrame) acc acc' k k' :
  draft_segment_step4 df acc k = Ok acc -> draft_segment_step4 df acc k' = Ok acc' ->
  draft_segment_step4 df acc' k = Ok acc'.
Proof.
  destruct acc as [[[[[c1 m1] c2] m2] c3] m3]. unfold draft_segment_step4.
  destruct (cumulative (loc_values k df) 0 3) as [x1|] eqn:E1; simpl; [|done].
  destruct (cumulative (loc_values k df) 1 3) as [x2|] eqn:E2; simpl; [|done].
  destruct (cumulative (loc_values k df) 2 3) as [x3|] eqn:E3; simpl; [|done].
  intros [= H1 H2 H3 H4 H5 H6].
  destruct (cumulative (loc_values k' df) 0 3) as [y1|] eqn:F1; simpl; [|done].
  destruct (cumulative (loc_values k' df) 1 3) as [y2|] eqn:F2; simpl; [|done].
  destruct (cumulative (loc_values k' df) 2 3) as [y3|] eqn:F3; simpl; [|done].
  intros [= <-]. simpl.
  rewrite !dict_set_after; try done; intros ->; congruence.
Qed.

Lemma segment_step3 (df : DataFrame) (acc : Dict * Dict * Dict * Dict) (k : string) :
  pd_segment_step df 3 (stage_dicts3 acc) k
  = match draft_segment_step3 df acc k with
    | Ok a => Ok (stage_dicts3 a) | Raise e => Raise e end.
Proof.
  destruct acc as [[[c1 m1] c2] m2].
  unfold pd_segment_step, draft_segment_step3, stage_dicts3.
  change (Z.to_nat (3 - 1)) with 2%nat. cbn [seq for_each].
  unfold pd_stage_step. change (Z.to_nat (3 - 1)) with 2%nat.
  destruct (cumulative (loc_values k df) 0 2) as [x1|]; simpl; [|done].
  destruct (cumulative (loc_values k df) 1 2) as [x2|]; simpl; done.
Qed.

Lemma segment_step4 (df : DataFrame) (acc : Dict * Dict * Dict * Dict * Dict * Dict)
    (k : string) :
  pd_segment_step df 4 (stage_dicts4 acc) k
  = match draft_segment_step4 df acc k with
    | Ok a => Ok (stage_dicts4 a) | Raise e => Raise e end.
Proof.
  destruct acc as [[[[[c1 m1] c2] m2] c3] m3].
  unfold pd_segment_step, draft_segment_step4, stage_dicts4.
  change (Z.to_nat (4 - 1)) with 3%nat. cbn [seq for_each].
  unfold pd_stage_step. change (Z.to_nat (4 - 1)) with 3%nat.
  destruct (cumulative (loc_values k df) 0 3) as [x1|]; simpl; [|done].
  destruct (cumulative (loc_values k df) 1 3) as [x2|]; simpl; [|done].
  destruct (cumulative (loc_values k df) 2 3) as [x3|]; simpl; done.
Qed.

(** The draft [extract_pds] and the final one agree.  For a size of 3 or 4
    the draft function, which walks the segment of every row and spells the
    stages out, returns the same tuple of tables as the final function, on
    every frame and store, and raises the same exception where that one
    raises. *)
Theorem draft_extract_pds_agrees (l : loc) (matrix_size : Z) (h : gmap nat DataFrame) :
  matrix_size ∈ [3; 4] ->
  draft_extract_pds l matrix_size h = returning_some (extract_pds l matrix_size h).
Proof.
  intros Hsize. unfold extract_pds. rewrite decide_False by (intros Hn; done).
  assert (matrix_size = 3 \/ matrix_size = 4) as [-> | ->] by set_solver.
  - unfold draft_extract_pds. rewrite decide_True by done.
    unfold mbind, State_bind, deref. destruct (h !! l) as [df|]; [|done].
    unfold lift. rewrite (for_each_unique _ (draft_step3_again df) (draft_step3_stable df)).
    change (replicate (Z.to_nat (3 - 1)) ([], [])) with (stage_dicts3 ([], [], [], [])).
    fold (segments df).
    rewrite (for_each_sim stage_dicts3 (draft_segment_step3 df) _ _ _ (segment_step3 df)).
    destruct (for_each (draft_segment_step3 df) (segments df) ([], [], [], []))
      as [[[[c1 m1] c2] m2]|e]; done.
  - unfold draft_extract_pds. rewrite decide_False by done. rewrite decide_True by done.
    unfold mbind, State_bind, deref. destruct (h !! l) as [df|]; [|done].
    unfold lift. rewrite (for_each_unique _ (draft_step4_again df) (draft_step4_stable df)).
    change (replicate (Z.to_nat (4 - 1)) ([], []))
      with (stage_dicts4 ([], [], [], [], [], [])).
    fold (segments df).
    rewrite (for_each_sim stage_dicts4 (draft_segment_step4 df) _ _ _ (segment_step4 df)).
    destruct (for_each (draft_segment_step4 df) (segments df) ([], [], [], [], [], []))
      as [[[[[[c1 m1] c2] m2] c3] m3]|e]; done.
Qed.

Lemma draft_extract_pds_agrees_witness :
  draft_extract_pds 0%nat 3 {[ 0%nat := sample_frame ]}
  = returning_some (extract_pds 0%nat 3 {[ 0%nat := sample_frame ]}).
Proof.
  apply (draft_extract_pds_agrees 0%nat 3 {[ 0%nat := sample_frame ]}).
  apply list_elem_of_In. simpl. auto.
Defined.

(** The labels of [staging_4x4] sort, in the lexical order that the rows and
    columns of [base_matrices] follow, by severity: a facility with more
    days past due never gets a label that sorts before the label of one
    with fewer.  So the default stage comes last in a block, where
    [absorbing_state] writes the absorbing row. *)
Theorem staging_4x4_sorts_by_severity (dpd1 dpd2 : Z) :
  dpd1 <= dpd2 ->
  staging_4x4 dpd1 = staging_4x4 dpd2 \/
  label_lt (staging_4x4 dpd1) (staging_4x4 dpd2).
Proof.
  intros Hle. unfold staging_4x4.
  destruct (Z.leb_spec dpd1 30), (Z.leb_spec dpd1 60), (Z.leb_spec dpd1 90),
    (Z.leb_spec dpd2 30), (Z.leb_spec dpd2 60), (Z.leb_spec dpd2 90);
    try lia; (by left) || (right; reflexivity).
Qed.

Lemma staging_4x4_sorts_by_severity_witness :
  staging_4x4 45 = staging_4x4 120 \/ label_lt (staging_4x4 45) (staging_4x4 120).
Proof.
  apply (staging_4x4_sorts_by_severity 45 120). lia.
Defined.
